(** * conbench: benchmark browsing and comparison views

    A shallow embedding of [conbench/app/benchmarks.py],
    [conbench/app/compare.py] and the data revision
    [migrations/versions/1c1ede4c924f_info_id_not_null.py].

    Conventions of the embedding:
    - the process-wide [bmrt_cache] is threaded explicitly through the
      handlers that read it ([show_benchmark_cases], [show_benchmark_results]);
    - Python exceptions are values of [exn]; a handler returns an [outcome];
    - insertion-ordered dictionaries whose order is observable (the grouping
      by hardware and context, [infos_for_uplots]) are association lists;
      the name index of the cache, of which only the key set and the buckets
      are observed here, is a [gmap];
    - [float] values ([started_at], [mean]) are only compared and copied,
      never computed with; they are rationals [Q];
    - template rendering, URL building and authorisation live outside these
      two files: a rendered page is the record of the arguments handed to the
      template, and [url_for] is a parameter. *)

From Stdlib Require Import QArith Lqa.
From Stdlib Require OrderedTypeEx.
From stdpp Require Import base option list sorting strings pretty gmap sets.

Local Open Scope string_scope.
Local Open Scope list_scope.

(** ** Data model *)

(** [conbench.job.BMRTBenchmarkResult], the fields the two views read. *)
Module BMRTBenchmarkResult.
Record t := mk {
  id : string;
  case_id : string;
  case_text_id : string;
  hardware_id : string;
  hardware_name : string;
  ui_hardware_short : string;
  context_id : string;
  started_at : Q;
  mean : option Q;
  unit : string
}.
End BMRTBenchmarkResult.
Module BMR := BMRTBenchmarkResult.
Abbreviation result := BMRTBenchmarkResult.t.

Inductive exn := KeyError | ValueError | IndexError.

(** *** Python dictionaries with and without a default factory

    [bmrt_cache["by_benchmark_name"]] is declared in [conbench.job]; the
    comment in [show_benchmark_cases] records that it is a
    [defaultdict(list)].  Both kinds of dictionary are modelled, so that the
    behaviour of a lookup can be stated for each. *)
Inductive dict_kind := plain_dict | defaultdict_list.

Record name_index := NameIndex {
  kind : dict_kind;
  entries : gmap string (list result)
}.

(** [k in d]: never mutates. *)
Definition dict_contains (d : name_index) (k : string) : bool :=
  bool_decide (is_Some (entries d !! k)).

(** [d[k]]: on a miss a plain dict raises [KeyError]; a [defaultdict(list)]
    calls its factory, stores the fresh empty list under [k] and returns
    it. *)
Definition dict_getitem (d : name_index) (k : string)
  : (exn + list result) * name_index :=
  match entries d !! k with
  | Some v => (inr v, d)
  | None =>
      match kind d with
      | plain_dict => (inl KeyError, d)
      | defaultdict_list => (inr [], NameIndex (kind d) (<[k := []]> (entries d)))
      end
  end.

Definition dict_keys (d : name_index) : gset string := dom (entries d).

Record cache := Cache {
  by_id : gmap string result;
  by_benchmark_name : name_index
}.

Definition set_by_benchmark_name (c : cache) (d : name_index) : cache :=
  Cache (by_id c) d.

(** *** Insertion-ordered dictionaries

    A Python [dict] (and a [defaultdict(list)] that is only appended to)
    iterates in the order in which its keys were first inserted. *)
Section OrderedDict.
Context {K V : Type} `{EqDecision K}.

(** [d[k].append(v)] on a [defaultdict(list)]. *)
Fixpoint dict_append (k : K) (v : V) (d : list (K * list V)) : list (K * list V) :=
  match d with
  | [] => [(k, [v])]
  | (k', vs) :: d' =>
      if decide (k = k') then (k', vs ++ [v]) :: d'
      else (k', vs) :: dict_append k v d'
  end.

(** [d[k] = v]: an existing key keeps its position. *)
Fixpoint dict_set (k : K) (v : V) (d : list (K * V)) : list (K * V) :=
  match d with
  | [] => [(k, v)]
  | (k', v') :: d' =>
      if decide (k = k') then (k', v) :: d'
      else (k', v') :: dict_set k v d'
  end.

Fixpoint dict_get (k : K) (d : list (K * V)) : option V :=
  match d with
  | [] => None
  | (k', v') :: d' => if decide (k = k') then Some v' else dict_get k d'
  end.

(** [for x in xs: d[key(x)].append(x)] starting from the dictionary [d]. *)
Definition group_into (key : V → K) (xs : list V) (d : list (K * list V))
  : list (K * list V) :=
  foldl (λ acc x, dict_append (key x) x acc) d xs.

End OrderedDict.

(** [sorted(items, key=lambda item: len(item[1]), reverse=True)]: Python's
    sort is stable, also under [reverse=True], so groups of equal length
    keep their insertion order. *)
Section SortByLen.
Context {K V : Type}.

Fixpoint insert_by_len_desc (x : K * list V) (l : list (K * list V))
  : list (K * list V) :=
  match l with
  | [] => [x]
  | y :: l' =>
      if (length y.2 <=? length x.2)%nat then x :: y :: l'
      else y :: insert_by_len_desc x l'
  end.

Definition sorted_by_len_desc (l : list (K * list V)) : list (K * list V) :=
  foldr insert_by_len_desc [] l.

End SortByLen.

(** ** [conbench/app/benchmarks.py] *)

(** [a > b] on timestamps. *)
Definition Qgtb (a b : Q) : bool :=
  match (a ?= b)%Q with Gt => true | _ => false end.

(** [max(results, key=lambda r: r.started_at)] keeps the item seen first
    and replaces it only by an item whose key is strictly greater. *)
Fixpoint max_by_started_at (best : result) (rest : list result) : result :=
  match rest with
  | [] => best
  | r :: rest' =>
      if Qgtb (BMR.started_at r) (BMR.started_at best)
      then max_by_started_at r rest'
      else max_by_started_at best rest'
  end.

(** [None] stands for the [ValueError] that [max] raises on an empty list. *)
Definition newest_of_many_results (results : list result) : option result :=
  match results with
  | [] => None
  | r :: rest => Some (max_by_started_at r rest)
  end.

Definition _UNIT_REPLACE_MAP : gmap string string :=
  list_to_map [("s", "seconds"); ("i/s", "iterations / second")].

Definition maybe_longer_unit (unit : string) : string :=
  match _UNIT_REPLACE_MAP !! unit with
  | Some longer => longer
  | None => unit
  end.

(** What a view function hands back: a plain text body, the arguments of a
    rendered template, or an exception that escapes the function. *)
Inductive response (P : Type) :=
  | Text (body : string)
  | Rendered (page : P)
  | Raised (e : exn).
Arguments Text {P} body.
Arguments Rendered {P} page.
Arguments Raised {P} e.

(** Arguments of [c-benchmark-cases.html]. *)
Record cases_page := CasesPage {
  cp_benchmark_name : string;
  cp_results_by_case_id : list (string * list result);
  cp_hardware_count_per_case_id : list (string * nat);
  cp_last_result_per_case_id : list (string * result);
  cp_context_count_per_case_id : list (string * nat);
  cp_benchmark_result_count : nat
}.

(** [len(set([f(r) for r in results]))] *)
Definition count_distinct (f : result → string) (results : list result) : nat :=
  size (list_to_set (f <$> results) : gset string).

Definition show_benchmark_cases (c : cache) (bname : string)
  : response cases_page * cache :=
  if negb (dict_contains (by_benchmark_name c) bname) then
    (Text ("benchmark name not known: `" +:+ bname +:+ "`"), c)
  else
    match dict_getitem (by_benchmark_name c) bname with
    | (inl e, d) => (Raised e, set_by_benchmark_name c d)
    | (inr matching_results, d) =>
        let c' := set_by_benchmark_name c d in
        let results_by_case_id := group_into BMR.case_id matching_results [] in
        let hardware_count_per_case_id :=
          (λ '(case_id, results), (case_id, count_distinct BMR.hardware_id results))
            <$> results_by_case_id in
        let context_count_per_case_id :=
          (λ '(case_id, results), (case_id, count_distinct BMR.context_id results))
            <$> results_by_case_id in
        match mapM (λ '(case_id, results),
                      pair case_id <$> newest_of_many_results results)
                   results_by_case_id with
        | None => (Raised ValueError, c')
        | Some last_result_per_case_id =>
            (Rendered {|
               cp_benchmark_name := bname;
               cp_results_by_case_id := results_by_case_id;
               cp_hardware_count_per_case_id := hardware_count_per_case_id;
               cp_last_result_per_case_id := last_result_per_case_id;
               cp_context_count_per_case_id := context_count_per_case_id;
               cp_benchmark_result_count := length matching_results |}, c')
        end
    end.

(** [TypeUIPlotInfo]; [data_for_uplot] is a list of lists as in the source. *)
Record TypeUIPlotInfo := UIPlotInfo {
  title : string;
  url_to_newest_result : string;
  data_for_uplot : list (list Q);
  unit : string
}.

(** The one [log.warning] of [show_benchmark_results], with its arguments. *)
Record warning := SawMoreThanOneUnit {
  w_bname : string;
  w_caseid : string;
  w_units_seen : gset string
}.

(** Arguments of [c-benchmark-results-for-case.html]. *)
Record results_page := ResultsPage {
  matching_benchmark_result_count : nat;
  benchmark_results_for_table : list result;
  y_unit_for_all_plots : string;
  benchmark_name : string;
  infos_for_uplots : list (string * TypeUIPlotInfo);
  this_case_id : string;
  this_case_text_id : string
}.

Abbreviation group_key := (string * string * string)%type.

(** The grouping loop: key [(hwid, ctxid, hwname)]. *)
Definition results_by_hardware_and_context (matching_results : list result)
  : list (group_key * list result) :=
  group_into
    (λ r, (BMR.hardware_id r, BMR.context_id r, BMR.hardware_name r))
    matching_results [].

Definition results_by_hardware_and_context_sorted (matching_results : list result)
  : list (group_key * list result) :=
  sorted_by_len_desc (results_by_hardware_and_context matching_results).

(** The table loop: [extend(results[:3000])], then [break] once the table
    holds 3000 rows or more. *)
Fixpoint results_for_table_loop (results_for_table : list result)
    (groups : list (group_key * list result)) : list result :=
  match groups with
  | [] => results_for_table
  | (_, results) :: groups' =>
      let results_for_table' := results_for_table ++ take 3000 results in
      if (3000 <=? length results_for_table')%nat then results_for_table'
      else results_for_table_loop results_for_table' groups'
  end.

Definition results_for_table (groups : list (group_key * list result)) : list result :=
  results_for_table_loop [] groups.

(** The outcome of [show_benchmark_results]: the response, the cache as the
    handler leaves it, and the warnings it logged. *)
Record results_run := ResultsRun {
  rr_response : response results_page;
  rr_cache : cache;
  rr_warnings : list warning
}.

Section Views.

(** [flask.url_for(endpoint, <the one keyword argument>)]. *)
Variable url_for : string → string → string.

(** [set.pop()] removes and returns an arbitrary element; which one is left
    to the interpreter (and, for strings, to the per-process hash seed).
    [choose] stands for that choice on a non-empty set. *)
Variable choose : gset string → string.

(** [units_seen.pop()] *)
Definition set_pop (s : gset string) : exn + (string * gset string) :=
  if decide (s = ∅) then inl KeyError
  else inr (choose s, s ∖ {[choose s]}).

(** The value stored under one key of [infos_for_uplots]. *)
Definition plot_info (ctxid : string) (results : list result)
    (first newest_result : result) : TypeUIPlotInfo :=
  {| data_for_uplot :=
       [ BMR.started_at <$> results;
         omap BMR.mean results ];
     title :=
       "hardware: " +:+ BMR.ui_hardware_short first
         +:+ ", context: " +:+ String.substring 0 7 ctxid
         +:+ ", " +:+ pretty (length results) +:+ " results";
     url_to_newest_result :=
       url_for "app.benchmark-result" (BMR.id newest_result);
     unit := BMR.unit newest_result |}.

(** The plotting loop over the ranked groups, threading [infos_for_uplots]
    and [units_seen]. *)
Fixpoint infos_for_uplots_loop (groups : list (group_key * list result))
    (infos : list (string * TypeUIPlotInfo)) (units_seen : gset string)
  : exn + (list (string * TypeUIPlotInfo) * gset string) :=
  match groups with
  | [] => inr (infos, units_seen)
  | ((hwid, ctxid, _), results) :: groups' =>
      if (length results <? 3)%nat then
        infos_for_uplots_loop groups' infos units_seen
      else
        match newest_of_many_results results, head results with
        | None, _ => inl ValueError
        | Some _, None => inl IndexError
        | Some newest_result, Some first =>
            let units_seen' := units_seen ∪ list_to_set (BMR.unit <$> results) in
            infos_for_uplots_loop groups'
              (dict_set (hwid +:+ "_" +:+ ctxid)
                        (plot_info ctxid results first newest_result) infos)
              units_seen'
        end
  end.

Definition show_benchmark_results (c : cache) (bname caseid : string)
  : results_run :=
  match dict_getitem (by_benchmark_name c) bname with
  | (inl _, d) =>
      ResultsRun (Text ("benchmark name not known: `" +:+ bname +:+ "`"))
                 (set_by_benchmark_name c d) []
  | (inr results_all_with_bname, d) =>
      let c' := set_by_benchmark_name c d in
      let matching_results :=
        filter (λ r, BMR.case_id r = caseid) results_all_with_bname in
      match matching_results with
      | [] =>
          ResultsRun
            (Text ("no results found for benchmark `" +:+ bname
                     +:+ "` and case `" +:+ caseid +:+ "`"))
            c' []
      | first_match :: _ =>
          let groups := results_by_hardware_and_context_sorted matching_results in
          let table := results_for_table groups in
          match infos_for_uplots_loop groups [] ∅ with
          | inl e => ResultsRun (Raised e) c' []
          | inr (infos, units_seen) =>
              let log :=
                if decide (size units_seen = 1%nat) then []
                else [SawMoreThanOneUnit bname caseid units_seen] in
              match set_pop units_seen with
              | inl e => ResultsRun (Raised e) c' log
              | inr (u, _) =>
                  ResultsRun
                    (Rendered {|
                       matching_benchmark_result_count := length matching_results;
                       benchmark_results_for_table := table;
                       y_unit_for_all_plots := maybe_longer_unit u;
                       benchmark_name := bname;
                       infos_for_uplots := infos;
                       this_case_id := BMR.case_id first_match;
                       this_case_text_id := BMR.case_text_id first_match |})
                    c' log
              end
          end
      end
  end.

End Views.

(** ** [conbench/app/compare.py] *)

(** *** The string operations used on [compare_ids] *)

Fixpoint str_drop (n : nat) (s : string) : string :=
  match n, s with
  | O, _ => s
  | S _, EmptyString => EmptyString
  | S n', String _ s' => str_drop n' s'
  end.

(** [s.partition(sep)] restricted to a hit: the text before the leftmost
    occurrence of [sep] and the text after it; [None] when [sep] does not
    occur. *)
Fixpoint str_partition (sep s : string) : option (string * string) :=
  if String.prefix sep s then Some (EmptyString, str_drop (String.length sep) s)
  else
    match s with
    | EmptyString => None
    | String a s' => (λ '(b, c), (String a b, c)) <$> str_partition sep s'
    end.

(** [sep in s] *)
Definition str_contains (sep s : string) : bool :=
  bool_decide (is_Some (str_partition sep s)).

(** [s.split(sep, 1)] *)
Definition str_split1 (sep s : string) : list string :=
  match str_partition sep s with
  | None => [s]
  | Some (b, c) => [b; c]
  end.

(** Truthiness of a [str]. *)
Definition str_truthy (s : string) : bool :=
  if decide (s = EmptyString) then false else true.

(** Truthiness of a value that is [None] or a [str]. *)
Definition errmsg_truthy (errmsg : option string) : bool :=
  match errmsg with
  | None => false
  | Some msg => str_truthy msg
  end.

(** *** Comparison entries

    An entry is the dictionary the API layer produces for one case; of its
    keys [_compare] reads ["baseline"] and ["contender"] (each [None] or a
    dictionary) and writes ["compare_benchmarks_url"]. *)
Record comparison := Comparison {
  baseline : option (gmap string string);
  contender : option (gmap string string);
  compare_benchmarks_url : option string
}.

(** Truthiness of a value that is [None] or a [dict]. *)
Definition side_truthy (side : option (gmap string string)) : bool :=
  match side with
  | None => false
  | Some d => if decide (d = ∅) then false else true
  end.

(** The class [Compare] with what its subclasses fill in. *)
Record Compare := {
  view_type : string;
  view_html : string;
  view_title : string;
  get_comparisons : string → string → list comparison * option string
}.

(** What [Compare.get] returns. [error_page] is declared in
    [conbench.app._util]; its [alert_level] keyword is [None] here when the
    call does not pass it. *)
Inductive compare_response :=
  | error_page (msg : string) (alert_level : option string) (subtitle : string)
  | page (comparisons : list comparison) (baseline_id contender_id : string)
  | compare_raised (e : exn).

(** The response of [get] together with the arguments of every
    [get_comparisons] call it made, in order: the only way [get] reaches the
    entities and the store. *)
Record compare_run := CompareRun {
  cr_response : compare_response;
  cr_resolutions : list (string * string)
}.

Section CompareViews.

Variable url_for : string → string → string.
Variable self : Compare.

(** The body of the [for c in comparisons] loop. *)
Definition set_compare_benchmarks_url (c : comparison) : exn + comparison :=
  let view := "app.compare-benchmark-results" in
  if side_truthy (baseline c) && side_truthy (contender c) then
    match baseline c ≫= (.!! "benchmark_result_id"),
          contender c ≫= (.!! "benchmark_result_id") with
    | Some b_id, Some c_id =>
        let compare := b_id +:+ "..." +:+ c_id in
        inr (Comparison (baseline c) (contender c) (Some (url_for view compare)))
    | _, _ => inl KeyError
    end
  else inr (Comparison (baseline c) (contender c) None).

Fixpoint set_compare_benchmarks_urls (cs : list comparison)
  : exn + list comparison :=
  match cs with
  | [] => inr []
  | c :: cs' =>
      match set_compare_benchmarks_url c with
      | inl e => inl e
      | inr c' =>
          match set_compare_benchmarks_urls cs' with
          | inl e => inl e
          | inr cs'' => inr (c' :: cs'')
          end
      end
  end.

Definition _compare (baseline_id contender_id : string)
  : exn + (list comparison * option string) :=
  let '(comparisons, errmsg) := get_comparisons self baseline_id contender_id in
  if errmsg_truthy errmsg then inr ([], errmsg)
  else
    match set_compare_benchmarks_urls comparisons with
    | inl e => inl e
    | inr comparisons' => inr (comparisons', None)
    end.

Definition get (compare_ids : string) : compare_run :=
  if negb (str_contains "..." compare_ids) then
    CompareRun
      (error_page "Got unexpected URL path pattern. Expected: <id>...<id>"
                  None (view_title self)) []
  else
    match str_split1 "..." compare_ids with
    | [baseline_id; contender_id] =>
        if negb (str_truthy baseline_id) then
          CompareRun
            (error_page
               "No baseline ID was provided. Expected format: <baseline_id>...<contender_id>"
               None (view_title self)) []
        else if negb (str_truthy contender_id) then
          CompareRun
            (error_page
               "No contender ID was provided. Expected format: <baseline-id>...<contender-id>"
               None (view_title self)) []
        else
          let resolutions := [(baseline_id, contender_id)] in
          match _compare baseline_id contender_id with
          | inl e => CompareRun (compare_raised e) resolutions
          | inr (comparison_results, Some error_string) =>
              CompareRun
                (error_page ("cannot perform comparison: " +:+ error_string)
                            (Some "info") (view_title self)) resolutions
          | inr (comparison_results, None) =>
              if decide (length comparison_results = 0%nat) then
                CompareRun
                  (error_page "comparison yielded 0 benchmark results"
                              (Some "info") (view_title self)) resolutions
              else
                CompareRun
                  (page comparison_results baseline_id contender_id) resolutions
          end
    | _ => CompareRun (compare_raised ValueError) []
    end.

End CompareViews.

(** ** More of [conbench/app/benchmarks.py] *)

(** [max(ts)] on a non-empty sequence of timestamps, first maximum kept. *)
Fixpoint max_started_at (best : Q) (rest : list Q) : Q :=
  match rest with
  | [] => best
  | t :: rest' =>
      if Qgtb t best then max_started_at t rest'
      else max_started_at best rest'
  end.

(** [max(r.started_at for r in results)]; [None] stands for the
    [ValueError] on an empty list. *)
Definition time_of_newest_of_many_results (results : list result) : option Q :=
  match BMR.started_at <$> results with
  | [] => None
  | t :: ts => Some (max_started_at t ts)
  end.

(** The slice [l[:n]]: a negative [n] counts from the end. *)
Definition slice_to {A} (n : Z) (l : list A) : list A :=
  if (0 <=? n)%Z then take (Z.to_nat n) l
  else take (length l - Z.to_nat (- n)) l.

(** [{k: d[k] for k in list(d)[:n]}]; [None] stands for a [KeyError] of
    [d[k]]. *)
Definition get_first_n_dict_subset {K V} `{EqDecision K}
    (d : list (K * V)) (n : Z) : option (list (K * V)) :=
  foldl (λ acc k, acc' ← acc; v ← dict_get k d; Some (dict_set k v acc'))
        (Some []) (slice_to n (d.*1)).

(** [sorted(l, key=key, reverse=reverse)] with keys compared by [lt]: the
    sort is stable, also under [reverse=True]. *)
Section Sorted.
Context {A K : Type} (lt : K → K → bool) (key : A → K).

(** [x], which comes before [y] in the input, stays before [y]. *)
Definition stays_before (reverse : bool) (x y : A) : bool :=
  if reverse then negb (lt (key x) (key y)) else negb (lt (key y) (key x)).

Fixpoint insert_sorted (reverse : bool) (x : A) (l : list A) : list A :=
  match l with
  | [] => [x]
  | y :: l' =>
      if stays_before reverse x y then x :: y :: l'
      else y :: insert_sorted reverse x l'
  end.

Definition sorted (reverse : bool) (l : list A) : list A :=
  foldr (insert_sorted reverse) [] l.

End Sorted.

(** [dict(pairs)]: a later pair with a key already present replaces the
    value and keeps the position. *)
Definition dict_of_pairs {K V} `{EqDecision K} (pairs : list (K * V))
  : list (K * V) :=
  foldl (λ d '(k, v), dict_set k v d) [] pairs.

(** [a < b] on timestamps. *)
Definition Qltb (a b : Q) : bool := Qgtb b a.

(** Arguments of [c-benchmarks.html]. *)
Record benchmarks_page := BenchmarksPage {
  bp_benchmarks_by_name : list (string * list result);
  bp_benchmark_result_count : nat;
  bp_benchmarks_by_name_sorted_alphabetically : list (string * list result);
  bp_newest_result_for_each_benchmark_name_topN : list result
}.

Section ListBenchmarks.

(** [str.lower] *)
Variable lower : string → string.

(** [list_benchmarks], given [items], the pairs of
    [bmrt_cache["by_benchmark_name"].items()] in the dictionary's iteration
    order, and the cache for [len(bmrt_cache["by_id"])]. *)
Definition list_benchmarks (c : cache) (items : list (string * list result))
  : response benchmarks_page :=
  let benchmarks_by_name_sorted_alphabetically :=
    dict_of_pairs (sorted String.ltb (λ item, lower item.1) false items) in
  match mapM (λ '(bname, bmrlist),
                pair bname <$> newest_of_many_results bmrlist) items with
  | None => Raised ValueError
  | Some newest_pairs =>
      let newest_result_by_bname := dict_of_pairs newest_pairs in
      let newest_result_for_each_benchmark_name_sorted :=
        snd <$> sorted Qltb (λ item, BMR.started_at item.2) true
                       newest_result_by_bname in
      Rendered {|
        bp_benchmarks_by_name := items;
        bp_benchmark_result_count := size (by_id c);
        bp_benchmarks_by_name_sorted_alphabetically :=
          benchmarks_by_name_sorted_alphabetically;
        bp_newest_result_for_each_benchmark_name_topN :=
          take 15 newest_result_for_each_benchmark_name_sorted |}
  end.

End ListBenchmarks.

(** ** More of [conbench/app/compare.py] *)

(** [all_keys(dict1, dict2, attr)]. Each of the two arguments is [None] or
    a dictionary whose value under [attr], when there is one, is itself a
    dictionary. The set of keys is enumerated in an arbitrary order and then
    sorted. *)
Definition all_keys (dict1 dict2 : option (gmap string (gmap string string)))
    (attr : string) : list string :=
  let dict1 := default ∅ dict1 in
  let dict2 := default ∅ dict2 in
  sorted String.ltb id false
    (elements (dom (default ∅ (dict1 !! attr))
                 ∪ dom (default ∅ (dict2 !! attr)))).

(** ** [migrations/versions/1c1ede4c924f_info_id_not_null.py]

    The revision works on the tables [info] and [summary] through the
    connection. A table is the list of its rows in the order in which a
    query without [ORDER BY] returns them; of the columns, those the
    revision reads or writes are kept. An [INSERT] puts its row at the end;
    an [UPDATE] writes a new version of every row it changes, and the table
    then returns the rows it left alone before the new versions (as
    PostgreSQL, the database of conbench, does). The order of the rows is
    a matter of the database, not of the revision: the properties of
    [upgrade] below speak of the rows of the [summary] table up to their
    order. Keys and foreign keys are declared by other revisions and are not
    part of this model. *)
Module info_id_not_null.

Inductive db_error := AttributeError | IntegrityError.

Record info_row := InfoRow {
  info_id : string;
  info_tags : gmap string string
}.

Record summary_row := SummaryRow {
  summary_id : string;
  summary_info_id : option string
}.

Record database := Database {
  info_table : list info_row;
  summary_table : list summary_row;
  summary_info_id_nullable : bool
}.

(** [summary_table.select().filter(summary_table.c.info_id.is_(None))] *)
Definition select_summaries_without_info (db : database) : list summary_row :=
  filter (λ s, summary_info_id s = None) (summary_table db).

(** [info_table.select().where(info_table.c.tags == {})...fetchone()] *)
Definition fetch_null_info (db : database) : option info_row :=
  head (filter (λ i, info_tags i = ∅) (info_table db)).

(** [info_table.insert().values(id=..., tags=...)] *)
Definition insert_info (db : database) (id : string)
    (tags : gmap string string) : database :=
  Database (info_table db ++ [InfoRow id tags]) (summary_table db)
           (summary_info_id_nullable db).

(** [summary_table.update().where(summary_table.c.id == id).values(info_id=...)] *)
Definition update_summary_info_id (db : database) (id info : string)
  : database :=
  Database (info_table db)
           (filter (λ s, summary_id s ≠ id) (summary_table db)
              ++ ((λ s, SummaryRow (summary_id s) (Some info))
                    <$> filter (λ s, summary_id s = id) (summary_table db)))
           (summary_info_id_nullable db).

(** [op.alter_column("summary", "info_id", ..., nullable=...)]: the database
    refuses [NOT NULL] on a column that holds a [NULL]. *)
Definition alter_column_summary_info_id (db : database) (nullable : bool)
  : db_error + database :=
  if nullable then
    inr (Database (info_table db) (summary_table db) true)
  else if decide (Forall (λ s, summary_info_id s ≠ None) (summary_table db))
  then inr (Database (info_table db) (summary_table db) false)
  else inl IntegrityError.

(** The lines written to the migration log. *)
Inductive log_line :=
  | FoundNull (i num : nat) (summary : string)
  | FoundNullInfo
  | NoNullInfo.

(** The [for i, summary in enumerate(summaries)] loop; [new_info_id] is the
    value of [uuid.uuid4().hex], drawn when the row is inserted. *)
Fixpoint upgrade_loop (new_info_id : string) (num i : nat)
    (summaries : list summary_row) (null_info : option info_row)
    (db : database) (log : list log_line)
  : db_error + (database * list log_line) :=
  match summaries with
  | [] => inr (db, log)
  | summary :: summaries' =>
      let log := log ++ [FoundNull (i + 1) num (summary_id summary)] in
      let '(null_info, db, log) :=
        match null_info with
        | Some _ => (null_info, db, log)
        | None =>
            match fetch_null_info db with
            | Some found => (Some found, db, log ++ [FoundNullInfo])
            | None =>
                let db := insert_info db new_info_id ∅ in
                (fetch_null_info db, db, log ++ [NoNullInfo])
            end
        end in
      match null_info with
      | None => inl AttributeError
      | Some info =>
          upgrade_loop new_info_id num (i + 1) summaries' null_info
            (update_summary_info_id db (summary_id summary) (info_id info))
            log
      end
  end.

Definition upgrade (new_info_id : string) (db : database)
  : db_error + (database * list log_line) :=
  let summaries := select_summaries_without_info db in
  match upgrade_loop new_info_id (length summaries) 0 summaries None db [] with
  | inl e => inl e
  | inr (db', log) =>
      match alter_column_summary_info_id db' false with
      | inl e => inl e
      | inr db'' => inr (db'', log)
      end
  end.

Definition downgrade (db : database) : db_error + database :=
  alter_column_summary_info_id db true.

End info_id_not_null.

(** ** Vocabulary of the properties *)

(** The page of a response, if it rendered one. *)
Definition rendered {P} (r : response P) : option P :=
  match r with
  | Rendered p => Some p
  | _ => None
  end.

(** The [data_for_uplot] value under every key of [infos_for_uplots]. *)
Definition uplot_data_of (run : results_run)
  : option (list (string * list (list Q))) :=
  (λ p, (λ '(key, info), (key, data_for_uplot info)) <$> infos_for_uplots p)
    <$> rendered (rr_response run).

(** [x] ranks before [y]: it has at least as many results. *)
Definition longer_or_equal {K V : Type} (x y : K * list V) : Prop :=
  (length y.2 ≤ length x.2)%nat.

(** What the first [n] ranked series put into the table: at most the first
    3000 results of each. *)
Definition table_rows_of (n : nat) (groups : list (group_key * list result))
  : list result :=
  concat ((λ g, take 3000 g.2) <$> take n groups).

(** The units of all results of the plotted series. *)
Definition plotted_units (groups : list (group_key * list result)) : gset string :=
  list_to_set (BMR.unit <$> concat (snd <$> filter (λ g, (3 ≤ length g.2)%nat) groups)).

(** [sep] occurs in [s]. *)
Definition occurs (sep s : string) : Prop :=
  ∃ b c, s = b +:+ sep +:+ c.

(** [b] and [c] are what lies before and after the first (leftmost)
    occurrence of [sep] in [s]. *)
Definition split_at_first (sep s b c : string) : Prop :=
  s = b +:+ sep +:+ c
  ∧ ∀ b' c', s = b' +:+ sep +:+ c' → (String.length b ≤ String.length b')%nat.




(** What [get] answers once both tokens are there: the part of its body
    after the three validation branches. *)
Definition render_comparison (url_for : string → string → string)
    (self : Compare) (baseline_id contender_id : string) : compare_response :=
  match _compare url_for self baseline_id contender_id with
  | inl e => compare_raised e
  | inr (_, Some error_string) =>
      error_page ("cannot perform comparison: " +:+ error_string)
                 (Some "info") (view_title self)
  | inr (comparison_results, None) =>
      if decide (length comparison_results = 0%nat) then
        error_page "comparison yielded 0 benchmark results"
                   (Some "info") (view_title self)
      else page comparison_results baseline_id contender_id
  end.

(** A side that is present carries its ["benchmark_result_id"], as every
    side the API layer emits does. *)
Definition side_well_formed (side : option (gmap string string)) : Prop :=
  match side with
  | None => True
  | Some d => is_Some (d !! "benchmark_result_id")
  end.

Definition entry_well_formed (e : comparison) : Prop :=
  side_well_formed (baseline e) ∧ side_well_formed (contender e).

(** How an entry [e'] that left the loop relates to the entry [e] that
    entered it: same sides; a link if and only if both sides are present;
    and the link, when there is one, is built from the two result ids. *)
Definition link_follows_sides (url_for : string → string → string)
    (e e' : comparison) : Prop :=
  baseline e' = baseline e
  ∧ contender e' = contender e
  ∧ (is_Some (compare_benchmarks_url e')
     ↔ is_Some (baseline e) ∧ is_Some (contender e))
  ∧ (∀ bd cd, baseline e = Some bd → contender e = Some cd →
       ∃ b_id c_id,
         bd !! "benchmark_result_id" = Some b_id
         ∧ cd !! "benchmark_result_id" = Some c_id
         ∧ compare_benchmarks_url e'
           = Some (url_for "app.compare-benchmark-results"
                           (b_id +:+ "..." +:+ c_id))).

(** ** Example data *)

Definition example_result (id hardware_id context_id : string)
    (started_at : Z) (mean : option Q) (unit : string) : result :=
  BMR.mk id "case-1" "size=10" hardware_id ("machine " +:+ hardware_id)
         hardware_id context_id (inject_Z started_at) mean unit.

(** A freshly filled cache index holding no benchmark at all. *)
Definition empty_cache : cache :=
  Cache ∅ (NameIndex defaultdict_list ∅).

Definition cache_of (bname : string) (results : list result) : cache :=
  Cache (list_to_map ((λ r, (BMR.id r, r)) <$> results))
        (NameIndex defaultdict_list {[ bname := results ]}).

(** One possible behaviour of [set.pop]: the first element in the set's
    internal enumeration. *)
Definition choose_first (s : gset string) : string :=
  default EmptyString (head (elements s)).

(** [set.pop] preferring [u] whenever it is in the set: another possible
    behaviour. *)
Definition choose_preferring (u : string) (s : gset string) : string :=
  if decide (u ∈ s) then u else choose_first s.

Definition example_url_for (endpoint arg : string) : string :=
  "/" +:+ endpoint +:+ "/" +:+ arg.

(** Two results started at the same instant. *)
Definition tie_a : result := example_result "a" "hw1" "ctx1" 100 (Some 10%Q) "s".
Definition tie_b : result := example_result "b" "hw1" "ctx1" 100 (Some 11%Q) "s".

(** [n] results of one hardware, started one second apart. *)
Definition series_of (hardware_id : string) (n : nat) : list result :=
  (λ i, example_result (hardware_id +:+ "-" +:+ pretty i) hardware_id "ctx1"
          (Z.of_nat i) (Some 1%Q) "s") <$> seq 0 n.

(** One series whose bucket holds the newest result first. *)
Definition series_newest_first : list result :=
  [ example_result "r3" "hw1" "ctx1" 300 (Some 12%Q) "s";
    example_result "r1" "hw1" "ctx1" 100 (Some 10%Q) "s";
    example_result "r2" "hw1" "ctx1" 200 (Some 11%Q) "s" ].

(** One series, oldest first, whose second run failed and has no mean. *)
Definition series_with_failed_run : list result :=
  [ example_result "r1" "hw1" "ctx1" 100 (Some 10%Q) "s";
    example_result "r2" "hw1" "ctx1" 200 None "s";
    example_result "r3" "hw1" "ctx1" 300 (Some 12%Q) "s" ].

(** One series whose results were ingested with two different units. *)
Definition series_with_mixed_units : list result :=
  [ example_result "r1" "hw1" "ctx1" 100 (Some 10%Q) "s";
    example_result "r2" "hw1" "ctx1" 200 (Some 11000%Q) "ms";
    example_result "r3" "hw1" "ctx1" 300 (Some 12%Q) "s" ].

(** A case with a single result. *)
Definition single_result : list result :=
  [ example_result "r1" "hw1" "ctx1" 100 (Some 10%Q) "s" ].

(** A comparison entry with both sides, and one with its baseline only. *)
Definition full_entry : comparison :=
  Comparison (Some {[ "benchmark_result_id" := "res-b1" ]})
             (Some {[ "benchmark_result_id" := "res-c1" ]}) None.

Definition baseline_only_entry : comparison :=
  Comparison (Some {[ "benchmark_result_id" := "res-b2" ]}) None None.

(** The view [CompareRuns] over a store that knows three runs: the
    comparison of run-1 with run-2 holds two entries, that of run-1 with
    run-3 holds none; anything else is unknown. *)
Definition example_compare_runs : Compare :=
  {| view_type := "run";
     view_html := "compare-list.html";
     view_title := "Compare Runs";
     get_comparisons := λ baseline_id contender_id,
       if decide (baseline_id = "run-1" ∧ contender_id = "run-2")
       then ([full_entry; baseline_only_entry], None)
       else if decide (baseline_id = "run-1" ∧ contender_id = "run-3")
       then ([], None)
       else ([], Some "not found") |}.

(** A dictionary of three entries. *)
Definition example_dict : list (string * nat) :=
  [("a", 1%nat); ("b", 2%nat); ("c", 3%nat)].

(** The key under which a series is grouped. *)
Definition series_key (r : result) : group_key :=
  (BMR.hardware_id r, BMR.context_id r, BMR.hardware_name r).

(** The key under which a group is plotted: ["{hwid}_{ctxid}"]. *)
Definition plot_key (g : group_key * list result) : string :=
  g.1.1.1 +:+ "_" +:+ g.1.1.2.

(** The plot entry built from a group. *)
Definition plot_info_of (url_for : string → string → string)
    (g : group_key * list result) : option TypeUIPlotInfo :=
  match g.2 with
  | [] => None
  | first :: rest =>
      Some (plot_info url_for g.1.1.2 g.2 first (max_by_started_at first rest))
  end.

(** Two series on the same hardware id and context whose hardware was
    renamed in between, and a third series too short to be plotted. *)
Definition renamed_hardware_results : list result :=
  [ BMR.mk "r1" "case-1" "size=10" "hw1" "old name" "hw1" "ctx1" (inject_Z 1) (Some 1%Q) "s";
    BMR.mk "r2" "case-1" "size=10" "hw1" "old name" "hw1" "ctx1" (inject_Z 2) (Some 1%Q) "s";
    BMR.mk "r3" "case-1" "size=10" "hw1" "old name" "hw1" "ctx1" (inject_Z 3) (Some 1%Q) "s";
    BMR.mk "r4" "case-1" "size=10" "hw1" "new name" "hw1" "ctx1" (inject_Z 4) (Some 1%Q) "s";
    BMR.mk "r5" "case-1" "size=10" "hw1" "new name" "hw1" "ctx1" (inject_Z 5) (Some 1%Q) "s";
    BMR.mk "r6" "case-1" "size=10" "hw1" "new name" "hw1" "ctx1" (inject_Z 6) (Some 1%Q) "s";
    BMR.mk "r7" "case-1" "size=10" "hw2" "other" "hw2" "ctx1" (inject_Z 7) (Some 1%Q) "s" ].

(** [str.lower] on ASCII letters, enough for the example names. *)
Definition ascii_lower (s : string) : string :=
  String.string_of_list_ascii
    ((λ a, let n := Ascii.nat_of_ascii a in
           if ((65 <=? n) && (n <=? 90))%nat
           then Ascii.ascii_of_nat (n + 32) else a)
       <$> String.list_ascii_of_string s).

(** An index of three benchmarks, in insertion order. *)
Definition example_items : list (string * list result) :=
  [ ("sort", [ example_result "s1" "hw1" "ctx1" 10 (Some 1%Q) "s";
               example_result "s2" "hw1" "ctx1" 30 (Some 1%Q) "s" ]);
    ("Parse", [ example_result "p1" "hw1" "ctx1" 50 (Some 1%Q) "s" ]);
    ("join", [ example_result "j1" "hw1" "ctx1" 20 (Some 1%Q) "s" ]) ].

(** Two displayed benchmark results with their tags. *)
Definition example_baseline : gmap string (gmap string string) :=
  {[ "tags" := {[ "name" := "sort"; "dataset" := "taxi" ]} ]}.

Definition example_contender : gmap string (gmap string string) :=
  {[ "tags" := {[ "name" := "sort"; "compression" := "none" ]} ]}.

(** A comparison entry whose baseline lacks its result id. *)
Definition entry_without_id : comparison :=
  Comparison (Some {[ "run_id" := "run-1" ]})
             (Some {[ "benchmark_result_id" := "res-c1" ]}) None.

(** A view whose store answers every comparison with the given result. *)
Definition compare_view_returning
    (answer : list comparison * option string) : Compare :=
  {| view_type := "run";
     view_html := "compare-list.html";
     view_title := "Compare Runs";
     get_comparisons := λ _ _, answer |}.

(** The ids of the summaries that have no info. *)
Definition summaries_without_info_ids (db : info_id_not_null.database)
  : list string :=
  info_id_not_null.summary_id
    <$> info_id_not_null.select_summaries_without_info db.

(** The summary rows after every row with one of [ids] was given [info]. *)
Definition summaries_given_info (ids : list string) (info : string)
    (rows : list info_id_not_null.summary_row)
  : list info_id_not_null.summary_row :=
  (λ s, if decide (info_id_not_null.summary_id s ∈ ids)
        then info_id_not_null.SummaryRow
               (info_id_not_null.summary_id s) (Some info)
        else s) <$> rows.

(** The info row that [upgrade] settles on when it has to look for one:
    the first row with empty tags, else the row it inserts. *)
Definition null_info_of (new_info_id : string)
    (db : info_id_not_null.database) : info_id_not_null.info_row :=
  default (info_id_not_null.InfoRow new_info_id ∅)
          (info_id_not_null.fetch_null_info db).

(** A database with two summaries that lack their info and no info row
    with empty tags, and one whose summaries all have an info. *)
Definition example_db : info_id_not_null.database :=
  info_id_not_null.Database
    [ info_id_not_null.InfoRow "i1" {[ "arrow" := "1.0" ]} ]
    [ info_id_not_null.SummaryRow "s1" (Some "i1");
      info_id_not_null.SummaryRow "s2" None;
      info_id_not_null.SummaryRow "s3" None ]
    true.

(** The same with a summary that has its info between the two that lack
    it. *)
Definition example_db_interleaved : info_id_not_null.database :=
  info_id_not_null.Database
    [ info_id_not_null.InfoRow "i1" {[ "arrow" := "1.0" ]} ]
    [ info_id_not_null.SummaryRow "s1" None;
      info_id_not_null.SummaryRow "s2" (Some "i1");
      info_id_not_null.SummaryRow "s3" None ]
    true.

Definition example_db_complete : info_id_not_null.database :=
  info_id_not_null.Database
    [ info_id_not_null.InfoRow "i1" {[ "arrow" := "1.0" ]} ]
    [ info_id_not_null.SummaryRow "s1" (Some "i1") ]
    true.


(** ** Properties of the cache lookups *)

Lemma dict_contains_keys d k :
  dict_contains d k = true ↔ k ∈ dict_keys d.
Proof.
  unfold dict_contains, dict_keys.
  rewrite bool_decide_eq_true. symmetry. apply elem_of_dom.
Qed.

Lemma dict_getitem_hit d k v :
  entries d !! k = Some v → dict_getitem d k = (inr v, d).
Proof. intros Hk. unfold dict_getitem. by rewrite Hk. Qed.

Lemma dict_getitem_miss_plain d k :
  kind d = plain_dict → k ∉ dict_keys d →
  dict_getitem d k = (inl KeyError, d).
Proof.
  intros Hkind Hk. unfold dict_getitem, dict_keys in *.
  apply not_elem_of_dom in Hk. by rewrite Hk, Hkind.
Qed.

Lemma dict_getitem_miss_default d k :
  kind d = defaultdict_list → k ∉ dict_keys d →
  ∃ d', dict_getitem d k = (inr [], d') ∧ dict_keys d' = {[k]} ∪ dict_keys d.
Proof.
  intros Hkind Hk. unfold dict_getitem, dict_keys in *.
  apply not_elem_of_dom in Hk. rewrite Hk, Hkind.
  eexists. split; [done |]. simpl. apply dom_insert_L.
Qed.

(** The membership test of [show_benchmark_cases] answers an unknown name
    without touching the cache, whatever kind of dictionary the index is. *)
Lemma show_benchmark_cases_unknown c bname :
  bname ∉ dict_keys (by_benchmark_name c) →
  show_benchmark_cases c bname
  = (Text ("benchmark name not known: `" +:+ bname +:+ "`"), c).
Proof.
  intros Hk. unfold show_benchmark_cases.
  destruct (dict_contains (by_benchmark_name c) bname) eqn:Hc; [| done].
  apply dict_contains_keys in Hc. done.
Qed.

(** On a [defaultdict(list)] the subscript of [show_benchmark_results] never
    raises [KeyError]: an unknown name is stored with an empty bucket and the
    handler goes on to report that the case has no results. *)
Lemma show_benchmark_results_unknown_default url_for choose c bname caseid :
  kind (by_benchmark_name c) = defaultdict_list →
  bname ∉ dict_keys (by_benchmark_name c) →
  let run := show_benchmark_results url_for choose c bname caseid in
  rr_response run
  = Text ("no results found for benchmark `" +:+ bname
            +:+ "` and case `" +:+ caseid +:+ "`")
  ∧ dict_keys (by_benchmark_name (rr_cache run))
    = {[bname]} ∪ dict_keys (by_benchmark_name c).
Proof.
  intros Hkind Hk.
  destruct (dict_getitem_miss_default _ _ Hkind Hk) as (d' & Hget & Hkeys).
  unfold show_benchmark_results. rewrite Hget. simpl. done.
Qed.

Lemma show_benchmark_results_unknown_plain url_for choose c bname caseid :
  kind (by_benchmark_name c) = plain_dict →
  bname ∉ dict_keys (by_benchmark_name c) →
  show_benchmark_results url_for choose c bname caseid
  = ResultsRun (Text ("benchmark name not known: `" +:+ bname +:+ "`")) c [].
Proof.
  intros Hkind Hk. unfold show_benchmark_results.
  rewrite (dict_getitem_miss_plain _ _ Hkind Hk).
  by destruct c.
Qed.

(** C1 (code defect). The per-case lookup on the cache's
    [defaultdict(list)] index with the unknown name ["nope"]: the name is not
    reported as unknown, and afterwards ["nope"] is a key of
    [by_benchmark_name]; the case-listing lookup on the same cache reports
    the name as unknown and leaves the cache as it was. *)
Theorem C1_per_case_lookup_creates_key url_for choose :
  let run := show_benchmark_results url_for choose empty_cache "nope" "case-1" in
  dict_keys (by_benchmark_name empty_cache) = ∅
  ∧ rr_response run
    = Text "no results found for benchmark `nope` and case `case-1`"
  ∧ dict_keys (by_benchmark_name (rr_cache run)) = {["nope"]}
  ∧ show_benchmark_cases empty_cache "nope"
    = (Text "benchmark name not known: `nope`", empty_cache).
Proof.
  assert (Hk : "nope" ∉ dict_keys (by_benchmark_name empty_cache))
    by (unfold dict_keys; simpl; set_solver).
  destruct (show_benchmark_results_unknown_default url_for choose
              empty_cache "nope" "case-1" eq_refl Hk) as [Hr Hkeys].
  cbv zeta. split; [| split; [| split]].
  - unfold dict_keys. simpl. apply dom_empty_L.
  - exact Hr.
  - rewrite Hkeys. unfold dict_keys. simpl. rewrite dom_empty_L. set_solver.
  - by apply show_benchmark_cases_unknown.
Qed.

(** ** The newest result of a list *)

Lemma Qgtb_true a b : Qgtb a b = true ↔ (b < a)%Q.
Proof.
  unfold Qgtb. rewrite (Qgt_alt a b).
  destruct (a ?= b)%Q; split; congruence.
Qed.

Lemma Qgtb_false a b : Qgtb a b = false ↔ (a <= b)%Q.
Proof.
  unfold Qgtb. rewrite (Qle_alt a b).
  destruct (a ?= b)%Q; split; congruence.
Qed.

(** [max_by_started_at best rest] sits at some position of [best :: rest],
    nothing in the list is newer, and everything before that position is
    strictly older. *)
Lemma max_by_started_at_spec best rest :
  ∃ i,
    (best :: rest) !! i = Some (max_by_started_at best rest)
    ∧ (∀ r', r' ∈ best :: rest →
         (BMR.started_at r' <= BMR.started_at (max_by_started_at best rest))%Q)
    ∧ (∀ j r', (j < i)%nat → (best :: rest) !! j = Some r' →
         (BMR.started_at r' < BMR.started_at (max_by_started_at best rest))%Q).
Proof.
  revert best. induction rest as [| x rest IH]; intros best.
  - exists 0%nat. simpl. split; [done |]. split.
    + intros r' Hr'. apply list_elem_of_singleton in Hr'. subst. apply Qle_refl.
    + intros j r' Hj. lia.
  - simpl. destruct (Qgtb (BMR.started_at x) (BMR.started_at best)) eqn:Hgt.
    + apply Qgtb_true in Hgt.
      destruct (IH x) as (i & Hi & Hmax & Hbefore).
      assert (Hx : (BMR.started_at x
                    <= BMR.started_at (max_by_started_at x rest))%Q)
        by (apply Hmax; left).
      exists (S i). split; [exact Hi |]. split.
      * intros r' Hr'. apply elem_of_cons in Hr' as [-> | Hr'].
        -- lra.
        -- by apply Hmax.
      * intros [| j] r' Hj Hr'.
        -- simpl in Hr'. injection Hr' as <-. lra.
        -- apply (Hbefore j); [lia | exact Hr'].
    + apply Qgtb_false in Hgt.
      destruct (IH best) as (i & Hi & Hmax & Hbefore).
      destruct i as [| i].
      * exists 0%nat. simpl in Hi. injection Hi as Hi.
        split; [simpl; by rewrite <- Hi |]. split.
        -- intros r' Hr'. apply elem_of_cons in Hr' as [-> | Hr'].
           ++ apply Hmax. left.
           ++ apply elem_of_cons in Hr' as [-> | Hr'].
              ** rewrite <- Hi. exact Hgt.
              ** apply Hmax. by right.
        -- intros j r' Hj. lia.
      * exists (S (S i)). split; [exact Hi |]. split.
        -- intros r' Hr'. apply elem_of_cons in Hr' as [-> | Hr'].
           ++ apply Hmax. left.
           ++ apply elem_of_cons in Hr' as [-> | Hr'].
              ** assert (BMR.started_at best
                         < BMR.started_at (max_by_started_at best rest))%Q
                   by (apply (Hbefore 0%nat); [lia | done]).
                 lra.
              ** apply Hmax. by right.
        -- intros [| [| j]] r' Hj Hr'.
           ++ apply (Hbefore 0%nat); [lia | exact Hr'].
           ++ simpl in Hr'. injection Hr' as <-.
              assert (BMR.started_at best
                      < BMR.started_at (max_by_started_at best rest))%Q
                by (apply (Hbefore 0%nat); [lia | done]).
              lra.
           ++ apply (Hbefore (S j)); [lia | exact Hr'].
Qed.

(** C4 (as amended). On a non-empty list [newest_of_many_results] returns a
    result of the list with maximal [started_at]; among several results
    sharing that maximum it returns the one that comes first in the list:
    every result before the returned position is strictly older. *)
Theorem C4_newest_is_first_maximal (results : list result) :
  results ≠ [] →
  ∃ r i,
    newest_of_many_results results = Some r
    ∧ results !! i = Some r
    ∧ (∀ r', r' ∈ results → (BMR.started_at r' <= BMR.started_at r)%Q)
    ∧ (∀ j r', (j < i)%nat → results !! j = Some r' →
         (BMR.started_at r' < BMR.started_at r)%Q).
Proof.
  destruct results as [| best rest]; [done |]. intros _.
  destruct (max_by_started_at_spec best rest) as (i & Hi & Hmax & Hbefore).
  exists (max_by_started_at best rest), i. simpl. eauto.
Qed.

(** ** Ranking of the series and the table *)

Section Ranking.
Context {K V : Type}.

Lemma insert_by_len_desc_elem (x y : K * list V) l :
  y ∈ insert_by_len_desc x l ↔ y = x ∨ y ∈ l.
Proof.
  induction l as [| z l IH]; simpl.
  - rewrite list_elem_of_singleton, elem_of_nil. tauto.
  - destruct (length z.2 <=? length x.2)%nat.
    + rewrite !elem_of_cons. tauto.
    + rewrite !elem_of_cons, IH. tauto.
Qed.

Lemma insert_by_len_desc_sorted (x : K * list V) l :
  StronglySorted longer_or_equal l →
  StronglySorted longer_or_equal (insert_by_len_desc x l).
Proof.
  induction 1 as [| z l Hl IH Hz]; simpl.
  - repeat constructor.
  - destruct (length z.2 <=? length x.2)%nat eqn:Hle.
    + apply Nat.leb_le in Hle. constructor.
      * by constructor.
      * constructor; [exact Hle |].
        eapply Forall_impl; [exact Hz |].
        unfold longer_or_equal. intros w Hw. lia.
    + apply Nat.leb_gt in Hle. constructor; [exact IH |].
      apply Forall_forall. intros w Hw.
      apply insert_by_len_desc_elem in Hw as [-> | Hw].
      * unfold longer_or_equal. lia.
      * rewrite Forall_forall in Hz. by apply Hz.
Qed.

(** The ranked groups are in descending order of length. *)
Lemma sorted_by_len_desc_sorted (l : list (K * list V)) :
  StronglySorted longer_or_equal (sorted_by_len_desc l).
Proof.
  induction l as [| x l IH]; simpl.
  - constructor.
  - by apply insert_by_len_desc_sorted.
Qed.

Lemma sorted_by_len_desc_elem (y : K * list V) l :
  y ∈ sorted_by_len_desc l ↔ y ∈ l.
Proof.
  induction l as [| x l IH]; simpl; [done |].
  rewrite insert_by_len_desc_elem, elem_of_cons, IH. done.
Qed.

End Ranking.

Lemma table_rows_of_cons n g groups :
  table_rows_of (S n) (g :: groups) = take 3000 g.2 ++ table_rows_of n groups.
Proof. reflexivity. Qed.

(** The loop stops at some series [n]; the table is what it held on entry
    followed by the contributions of the series before [n]; a series is only
    started while the table holds fewer than 3000 rows; and the loop only
    stops early once the table holds 3000 rows or more. *)
Lemma results_for_table_loop_spec groups : ∀ acc,
  ∃ n, (n ≤ length groups)%nat
    ∧ results_for_table_loop acc groups = acc ++ table_rows_of n groups
    ∧ (∀ m, (0 < m < n)%nat →
         (length (acc ++ table_rows_of m groups) < 3000)%nat)
    ∧ (n = length groups
       ∨ (3000 ≤ length (results_for_table_loop acc groups))%nat).
Proof.
  induction groups as [| [k results] groups IH]; intros acc.
  - exists 0%nat. cbn [results_for_table_loop length].
    split; [lia |]. split; [by rewrite app_nil_r |]. split; [lia | by left].
  - cbn [results_for_table_loop].
    destruct (3000 <=? length (acc ++ take 3000 results))%nat eqn:Hfull.
    + apply Nat.leb_le in Hfull. exists 1%nat.
      cbn [length]. split; [lia |].
      split; [by rewrite table_rows_of_cons; unfold table_rows_of; simpl; rewrite app_nil_r |].
      split; [lia | by right].
    + apply Nat.leb_gt in Hfull.
      destruct (IH (acc ++ take 3000 results)) as (n & Hn & Heq & Hbelow & Hstop).
      exists (S n). cbn [length]. split; [lia |].
      split; [by rewrite Heq, table_rows_of_cons, app_assoc |].
      split.
      * intros [| m] Hm; [lia |].
        rewrite table_rows_of_cons, app_assoc.
        destruct m as [| m].
        -- unfold table_rows_of. simpl. by rewrite app_nil_r.
        -- apply Hbelow. lia.
      * destruct Hstop as [-> | Hstop]; [by left | by right].
Qed.

(** With the series in descending order of length the table stays below
    twice the cap: either the first series alone fills it, or every series
    that contributes has fewer than 3000 results. *)
Lemma results_for_table_loop_bound groups : ∀ acc,
  StronglySorted longer_or_equal groups →
  (length acc ≤ 2999)%nat →
  acc = [] ∨ Forall (λ g, (length g.2 ≤ 2999)%nat) groups →
  (length (results_for_table_loop acc groups) ≤ 2999 + 2999)%nat.
Proof.
  induction groups as [| [k results] groups IH]; intros acc Hsorted Hacc Hsmall.
  - cbn [results_for_table_loop]. lia.
  - cbn [results_for_table_loop].
    apply StronglySorted_inv in Hsorted as [Hsorted Hhead].
    assert (Hlen : length (acc ++ take 3000 results)
                   = (length acc + 3000 `min` length results)%nat)
      by (by rewrite length_app, length_take).
    destruct (3000 <=? length (acc ++ take 3000 results))%nat eqn:Hfull.
    + destruct Hsmall as [-> | Hsmall].
      * rewrite Hlen. cbn [length]. lia.
      * apply Forall_cons in Hsmall as [Hsmall _]. simpl in Hsmall. lia.
    + apply Nat.leb_gt in Hfull.
      apply IH; [exact Hsorted | lia |].
      right. eapply Forall_impl; [exact Hhead |].
      unfold longer_or_equal. simpl. intros g Hg. lia.
Qed.

(** C2 (as amended). The table built from the ranked series holds at most
    5998 rows. It consists of the first 3000 results (at most) of each of the
    first [n] ranked series, in ranking order; a series is started only
    while the table holds fewer than 3000 rows, and the walk ends before the
    last series only once the table holds 3000 rows or more. *)
Theorem C2_table_below_twice_the_cap (matching_results : list result) :
  let groups := results_by_hardware_and_context_sorted matching_results in
  let table := results_for_table groups in
  (length table ≤ 2999 + 2999)%nat
  ∧ ∃ n, (n ≤ length groups)%nat
      ∧ table = table_rows_of n groups
      ∧ (∀ m, (m < n)%nat → (length (table_rows_of m groups) < 3000)%nat)
      ∧ (n = length groups ∨ (3000 ≤ length table)%nat).
Proof.
  intros groups table. split.
  - apply results_for_table_loop_bound; [| simpl; lia | by left].
    apply sorted_by_len_desc_sorted.
  - destruct (results_for_table_loop_spec groups []) as (n & Hn & Heq & Hbelow & Hstop).
    exists n. split; [exact Hn |]. split; [exact Heq |]. split; [| exact Hstop].
    intros [| m] Hm.
    + unfold table_rows_of. simpl. lia.
    + apply (Hbelow (S m)). lia.
Qed.

(** ** The plotted series *)

Section PlotLoop.
Variable url_for : string → string → string.

(** The loop cannot raise (a group of three or more results has a first and
    a newest element), and it adds to [units_seen] exactly the units of the
    groups that reach the threshold. *)
Lemma infos_for_uplots_loop_units groups : ∀ infos units_seen,
  ∃ infos',
    infos_for_uplots_loop url_for groups infos units_seen
    = inr (infos', units_seen ∪ plotted_units groups).
Proof.
  induction groups as [| [[[hwid ctxid] hwname] results] groups IH];
    intros infos units_seen.
  - exists infos. unfold plotted_units. simpl.
    by rewrite (right_id_L ∅ (∪)).
  - cbn [infos_for_uplots_loop]. unfold plotted_units.
    rewrite filter_cons. cbn [snd].
    destruct (length results <? 3)%nat eqn:Hlen.
    + apply Nat.ltb_lt in Hlen.
      rewrite decide_False by lia. apply IH.
    + apply Nat.ltb_ge in Hlen.
      rewrite decide_True by lia.
      destruct results as [| first rest]; [simpl in Hlen; lia |].
      cbn [newest_of_many_results head].
      destruct (IH (dict_set (hwid +:+ "_" +:+ ctxid)
                      (plot_info url_for ctxid (first :: rest) first
                         (max_by_started_at first rest)) infos)
                   (units_seen ∪ list_to_set (BMR.unit <$> first :: rest)))
        as (infos' & Heq).
      exists infos'. rewrite Heq. f_equal. f_equal.
      unfold plotted_units.
      rewrite (fmap_cons snd). cbn [snd concat].
      rewrite (fmap_app BMR.unit), list_to_set_app_L.
      by rewrite (assoc_L (∪)).
Qed.

Lemma dict_set_elem {V} (k k' : string) (v v' : V) d :
  (k', v') ∈ dict_set k v d → (k', v') = (k, v) ∨ (k', v') ∈ d.
Proof.
  induction d as [| [k0 v0] d IH]; simpl.
  - rewrite list_elem_of_singleton. tauto.
  - destruct (decide (k = k0)) as [-> | Hne]; rewrite !elem_of_cons.
    + tauto.
    + intros [? | Hin]; [tauto |]. destruct (IH Hin); tauto.
Qed.

(** Every entry the loop leaves in [infos_for_uplots] was either there
    before, or was built by [plot_info] from one of the groups with three or
    more results, under the key ["{hwid}_{ctxid}"]. *)
Lemma infos_for_uplots_loop_entries groups : ∀ infos units_seen infos' units' key info,
  infos_for_uplots_loop url_for groups infos units_seen = inr (infos', units') →
  (key, info) ∈ infos' →
  (key, info) ∈ infos
  ∨ ∃ hwid ctxid hwname first rest,
      ((hwid, ctxid, hwname), first :: rest) ∈ groups
      ∧ (3 ≤ length (first :: rest))%nat
      ∧ key = hwid +:+ "_" +:+ ctxid
      ∧ info = plot_info url_for ctxid (first :: rest) first
                 (max_by_started_at first rest).
Proof.
  induction groups as [| [[[hwid ctxid] hwname] results] groups IH];
    intros infos units_seen infos' units' key info Hloop Hin.
  - simpl in Hloop. injection Hloop as <- <-. by left.
  - cbn [infos_for_uplots_loop] in Hloop.
    destruct (length results <? 3)%nat eqn:Hlen.
    + destruct (IH _ _ _ _ _ _ Hloop Hin) as [? | Hex]; [by left | right].
      destruct Hex as (h & x & n & f & r & Hg & ?).
      exists h, x, n, f, r. split; [by right | done].
    + apply Nat.ltb_ge in Hlen.
      destruct results as [| first rest]; [simpl in Hlen; lia |].
      cbn [newest_of_many_results head] in Hloop.
      destruct (IH _ _ _ _ _ _ Hloop Hin) as [Hold | Hex].
      * apply dict_set_elem in Hold as [Hnew | Hold]; [| by left].
        injection Hnew as -> ->. right.
        exists hwid, ctxid, hwname, first, rest.
        split; [by left | done].
      * right. destruct Hex as (h & x & n & f & r & Hg & ?).
        exists h, x, n, f, r. split; [by right | done].
Qed.

End PlotLoop.

Lemma omap_mean_cons (r : result) (results : list result) :
  omap BMR.mean (r :: results)
  = match BMR.mean r with
    | Some m => m :: omap BMR.mean results
    | None => omap BMR.mean results
    end.
Proof. reflexivity. Qed.

Lemma omap_mean_length_le (results : list result) :
  (length (omap BMR.mean results) ≤ length results)%nat.
Proof.
  induction results as [| r results IH]; [done |].
  rewrite omap_mean_cons. destruct (BMR.mean r); cbn [length]; lia.
Qed.

(** The second array of [data_for_uplot] is as long as the first exactly
    when no result of the series lacks its mean. *)
Lemma omap_mean_length (results : list result) :
  length (omap BMR.mean results) = length (BMR.started_at <$> results)
  ↔ Forall (λ r, is_Some (BMR.mean r)) results.
Proof.
  rewrite length_fmap.
  induction results as [| r results IH].
  - split; [constructor | done].
  - rewrite omap_mean_cons, Forall_cons.
    pose proof (omap_mean_length_le results) as Hle.
    destruct (BMR.mean r) as [m |] eqn:Hm; cbn [length].
    + split.
      * intros Hlen. split; [done |]. apply IH. lia.
      * intros [_ Hall]. f_equal. by apply IH.
    + split.
      * intros Hlen. lia.
      * intros [[m Hsome] _]. congruence.
Qed.

(** ** The handler on a known name *)

Lemma set_by_benchmark_name_id c :
  set_by_benchmark_name c (by_benchmark_name c) = c.
Proof. by destruct c. Qed.

(** [show_benchmark_results] on a name the index holds, for a case with at
    least one result: the handler ends in the [KeyError] of [set.pop] when no
    series is plotted, and otherwise renders the page with the unit that
    [set.pop] picked; it logs the warning unless exactly one unit was seen;
    the cache is left as it was. *)
Lemma show_benchmark_results_known url_for choose c bname caseid bucket first rest :
  entries (by_benchmark_name c) !! bname = Some bucket →
  filter (λ r, BMR.case_id r = caseid) bucket = first :: rest →
  let groups := results_by_hardware_and_context_sorted (first :: rest) in
  let units_seen := plotted_units groups in
  ∃ infos,
    infos_for_uplots_loop url_for groups [] ∅ = inr (infos, units_seen)
    ∧ show_benchmark_results url_for choose c bname caseid
      = ResultsRun
          (if decide (units_seen = ∅) then Raised KeyError
           else Rendered {|
             matching_benchmark_result_count := length (first :: rest);
             benchmark_results_for_table := results_for_table groups;
             y_unit_for_all_plots := maybe_longer_unit (choose units_seen);
             benchmark_name := bname;
             infos_for_uplots := infos;
             this_case_id := BMR.case_id first;
             this_case_text_id := BMR.case_text_id first |})
          c
          (if decide (size units_seen = 1%nat) then []
           else [SawMoreThanOneUnit bname caseid units_seen]).
Proof.
  intros Hbucket Hmatch groups units_seen.
  destruct (infos_for_uplots_loop_units url_for groups [] ∅) as (infos & Hloop).
  rewrite (left_id_L ∅ (∪)) in Hloop. fold units_seen in Hloop.
  exists infos. split; [exact Hloop |].
  unfold show_benchmark_results.
  rewrite (dict_getitem_hit _ _ _ Hbucket), Hmatch.
  fold groups. rewrite Hloop. rewrite set_by_benchmark_name_id.
  unfold set_pop. by destruct (decide (units_seen = ∅)).
Qed.

(** Whenever no series of the case reaches three results, the handler ends
    in the [KeyError] of [set.pop] on the empty [units_seen]. *)
Lemma show_benchmark_results_nothing_plotted
    url_for choose c bname caseid bucket first rest :
  entries (by_benchmark_name c) !! bname = Some bucket →
  filter (λ r, BMR.case_id r = caseid) bucket = first :: rest →
  plotted_units (results_by_hardware_and_context_sorted (first :: rest)) = ∅ →
  rr_response (show_benchmark_results url_for choose c bname caseid)
  = Raised KeyError.
Proof.
  intros Hbucket Hmatch Hunits.
  destruct (show_benchmark_results_known url_for choose c bname caseid
              bucket first rest Hbucket Hmatch) as (infos & _ & ->).
  simpl. by rewrite decide_True.
Qed.

Lemma plotted_units_nil : plotted_units [] = ∅.
Proof. reflexivity. Qed.

Lemma choose_first_elem (s : gset string) : s ≠ ∅ → choose_first s ∈ s.
Proof.
  intros Hne. unfold choose_first.
  destruct (elements s) as [| x l] eqn:Hel.
  - by apply elements_empty_inv, leibniz_equiv in Hel.
  - simpl. apply elem_of_elements. rewrite Hel. left.
Qed.

Lemma choose_preferring_elem u (s : gset string) :
  s ≠ ∅ → choose_preferring u s ∈ s.
Proof.
  intros Hne. unfold choose_preferring.
  destruct (decide (u ∈ s)); [done | by apply choose_first_elem].
Qed.

(** C5 (as amended). When the plotted series of a case carry more than one
    distinct unit, the handler logs the warning, still renders the page, and
    labels the axis with the display form of one of the observed units: the
    one [set.pop] returns. *)
Theorem C5_mixed_units_warn_and_pick_one
    url_for choose c bname caseid bucket :
  (∀ s : gset string, s ≠ ∅ → choose s ∈ s) →
  entries (by_benchmark_name c) !! bname = Some bucket →
  let units_seen :=
    plotted_units
      (results_by_hardware_and_context_sorted
         (filter (λ r, BMR.case_id r = caseid) bucket)) in
  (1 < size units_seen)%nat →
  ∃ p u,
    show_benchmark_results url_for choose c bname caseid
    = ResultsRun (Rendered p) c [SawMoreThanOneUnit bname caseid units_seen]
    ∧ u ∈ units_seen
    ∧ y_unit_for_all_plots p = maybe_longer_unit u.
Proof.
  intros Hchoose Hbucket units_seen Hsize.
  destruct (filter (λ r, BMR.case_id r = caseid) bucket)
    as [| first rest] eqn:Hmatch.
  { change units_seen with (plotted_units []) in Hsize.
    rewrite plotted_units_nil, size_empty in Hsize. lia. }
  destruct (show_benchmark_results_known url_for choose c bname caseid
              bucket first rest Hbucket Hmatch) as (infos & _ & Hrun).
  fold units_seen in Hrun.
  assert (Hne : units_seen ≠ ∅).
  { intros Hempty. rewrite Hempty, size_empty in Hsize. lia. }
  rewrite decide_False in Hrun by exact Hne.
  rewrite decide_False in Hrun by lia.
  eexists _, (choose units_seen). split; [exact Hrun |].
  split; [by apply Hchoose | done].
Qed.

(** C3 (code defect). A bucket holding one series newest-first: the
    timestamps handed to the plot are in bucket order, 300, 100, 200, which
    is not ascending. *)
Theorem C3_points_keep_bucket_order url_for choose :
  uplot_data_of
    (show_benchmark_results url_for choose
       (cache_of "bench" series_newest_first) "bench" "case-1")
  = Some [("hw1_ctx1",
           [ [inject_Z 300; inject_Z 100; inject_Z 200];
             [12%Q; 10%Q; 11%Q] ])]
  ∧ ¬ (inject_Z 300 <= inject_Z 100)%Q.
Proof.
  split; [vm_compute; reflexivity |].
  intros Hle. vm_compute in Hle. by apply Hle.
Qed.

(** C6 (code defect). A series of three results whose second has no mean:
    the timestamp array has three entries, the mean array two, so the mean
    at index 1 (12) is that of the result whose timestamp is at index 2. *)
Theorem C6_absent_mean_shifts_means url_for choose :
  uplot_data_of
    (show_benchmark_results url_for choose
       (cache_of "bench" series_with_failed_run) "bench" "case-1")
  = Some [("hw1_ctx1",
           [ [inject_Z 100; inject_Z 200; inject_Z 300];
             [10%Q; 12%Q] ])].
Proof. vm_compute. reflexivity. Qed.

(** C10 (code defect). A case with a single result: no series reaches three
    points, [units_seen] stays empty, the warning is logged and
    [units_seen.pop()] raises [KeyError]. *)
Theorem C10_no_plotted_series_raises url_for choose :
  let run :=
    show_benchmark_results url_for choose
      (cache_of "bench" single_result) "bench" "case-1" in
  rr_response run = Raised KeyError
  ∧ rr_warnings run = [SawMoreThanOneUnit "bench" "case-1" ∅].
Proof. split; vm_compute; reflexivity. Qed.

(** ** Concrete runs of the benchmark views *)

(** C2 (counterexample). Two series of 2000 results each: the first leaves
    the table below the cap, the second is added whole, and the table holds
    4000 rows. *)
Lemma C2_two_series_exceed_cap :
  length (results_for_table
            (results_by_hardware_and_context_sorted
               (series_of "hw1" 2000 ++ series_of "hw2" 2000)))
  = 4000%nat.
Proof. vm_compute. reflexivity. Qed.

(** The bound of the amended C2 is attained by two series of 2999 results. *)
Example table_bound_attained :
  length (results_for_table
            (results_by_hardware_and_context_sorted
               (series_of "hw1" 2999 ++ series_of "hw2" 2999)))
  = (2999 + 2999)%nat.
Proof. vm_compute. reflexivity. Qed.

(** C4 (counterexample). Two results started at the same instant, with ids
    ["a"] < ["b"]: listed as a, b the newest is a; listed as b, a the newest
    is b. The choice follows the list order, and in the first list it is not
    the result with the greatest id. *)
Lemma C4_tie_follows_list_order :
  BMR.started_at tie_a = BMR.started_at tie_b
  ∧ String.ltb (BMR.id tie_a) (BMR.id tie_b) = true
  ∧ [tie_a; tie_b] ≡ₚ [tie_b; tie_a]
  ∧ newest_of_many_results [tie_a; tie_b] = Some tie_a
  ∧ newest_of_many_results [tie_b; tie_a] = Some tie_b.
Proof.
  split; [reflexivity |]. split; [reflexivity |].
  split; [apply Permutation_swap |]. split; reflexivity.
Qed.

(** The amended C4 on the list a, b of two results started together. *)
Lemma C4_newest_is_first_maximal_witness :
  ∃ r i,
    newest_of_many_results [tie_a; tie_b] = Some r
    ∧ [tie_a; tie_b] !! i = Some r
    ∧ (∀ r', r' ∈ [tie_a; tie_b] → (BMR.started_at r' <= BMR.started_at r)%Q)
    ∧ (∀ j r', (j < i)%nat → [tie_a; tie_b] !! j = Some r' →
         (BMR.started_at r' < BMR.started_at r)%Q).
Proof. apply (C4_newest_is_first_maximal [tie_a; tie_b]). discriminate. Defined.

(** C5 (counterexample). Units ["ms"] and ["s"] in one plotted series, and
    two admissible behaviours of [set.pop]: one labels the axis "seconds",
    the other "ms". The lexicographically smallest unit is ["ms"]. *)
Lemma C5_unit_depends_on_pop :
  let run choose :=
    show_benchmark_results example_url_for choose
      (cache_of "bench" series_with_mixed_units) "bench" "case-1" in
  (∀ s : gset string, s ≠ ∅ → choose_preferring "s" s ∈ s)
  ∧ (∀ s : gset string, s ≠ ∅ → choose_preferring "ms" s ∈ s)
  ∧ String.ltb "ms" "s" = true
  ∧ y_unit_for_all_plots <$> rendered (rr_response (run (choose_preferring "s")))
    = Some "seconds"
  ∧ y_unit_for_all_plots <$> rendered (rr_response (run (choose_preferring "ms")))
    = Some "ms".
Proof.
  cbv zeta.
  split; [apply choose_preferring_elem |].
  split; [apply choose_preferring_elem |].
  split; [reflexivity |]. split; vm_compute; reflexivity.
Qed.

(** The amended C5 on a series with units "s" and "ms", with [set.pop]
    returning the first element of its enumeration. *)
Lemma C5_mixed_units_warn_and_pick_one_witness :
  let c := cache_of "bench" series_with_mixed_units in
  let units_seen :=
    plotted_units
      (results_by_hardware_and_context_sorted
         (filter (λ r, BMR.case_id r = "case-1") series_with_mixed_units)) in
  (1 < size units_seen)%nat
  ∧ ∃ p u,
      show_benchmark_results example_url_for choose_first c "bench" "case-1"
      = ResultsRun (Rendered p) c [SawMoreThanOneUnit "bench" "case-1" units_seen]
      ∧ u ∈ units_seen
      ∧ y_unit_for_all_plots p = maybe_longer_unit u.
Proof.
  cbv zeta.
  assert (Hsize : (1 < size (plotted_units
                     (results_by_hardware_and_context_sorted
                        (filter (λ r, BMR.case_id r = "case-1")
                                series_with_mixed_units))))%nat)
    by (vm_compute; lia).
  split; [exact Hsize |].
  apply (C5_mixed_units_warn_and_pick_one example_url_for choose_first
           (cache_of "bench" series_with_mixed_units) "bench" "case-1"
           series_with_mixed_units choose_first_elem).
  - reflexivity.
  - exact Hsize.
Defined.

(** ** The compare token *)

Lemma append_nil (t : string) : EmptyString +:+ t = t.
Proof. reflexivity. Qed.

Lemma append_cons a (s t : string) : String a s +:+ t = String a (s +:+ t).
Proof. reflexivity. Qed.

Lemma prefix_true_app sep s :
  String.prefix sep s = true → s = sep +:+ str_drop (String.length sep) s.
Proof.
  revert s. induction sep as [| a sep IH]; intros s Hp; [done |].
  destruct s as [| a' s]; [done |]. simpl in Hp.
  destruct (Ascii.ascii_dec a a') as [-> | _]; [| done].
  rewrite append_cons. cbn [String.length str_drop]. f_equal. by apply IH.
Qed.

Lemma prefix_app sep c : String.prefix sep (sep +:+ c) = true.
Proof.
  induction sep as [| a sep IH].
  - rewrite append_nil. by destruct c.
  - rewrite append_cons. simpl. destruct (Ascii.ascii_dec a a); done.
Qed.

Lemma str_partition_eq sep s :
  str_partition sep s
  = if String.prefix sep s
    then Some (EmptyString, str_drop (String.length sep) s)
    else match s with
         | EmptyString => None
         | String a s' => (λ '(b, c), (String a b, c)) <$> str_partition sep s'
         end.
Proof. by destruct s. Qed.

Lemma str_partition_Some sep s b c :
  str_partition sep s = Some (b, c) → s = b +:+ sep +:+ c.
Proof.
  revert b. induction s as [| a s IH]; intros b; rewrite str_partition_eq.
  - destruct (String.prefix sep EmptyString) eqn:Hp; [| done].
    intros [= <- <-]. rewrite append_nil. by apply prefix_true_app.
  - destruct (String.prefix sep (String a s)) eqn:Hp.
    + intros [= <- <-]. rewrite append_nil. by apply prefix_true_app.
    + destruct (str_partition sep s) as [[b0 c0] |]; [| done].
      simpl. intros [= <- <-]. rewrite append_cons. f_equal. by apply IH.
Qed.

Lemma str_partition_leftmost sep s b c :
  str_partition sep s = Some (b, c) →
  ∀ b' c', s = b' +:+ sep +:+ c' → (String.length b ≤ String.length b')%nat.
Proof.
  revert b. induction s as [| a s IH]; intros b; rewrite str_partition_eq.
  - destruct (String.prefix sep EmptyString); [| done].
    intros [= <- <-] b' c' _. simpl. lia.
  - destruct (String.prefix sep (String a s)) eqn:Hp.
    + intros [= <- <-] b' c' _. simpl. lia.
    + destruct (str_partition sep s) as [[b0 c0] |] eqn:Hs; [| done].
      simpl. intros [= <- <-] b' c' Heq.
      destruct b' as [| a' b'].
      * rewrite append_nil in Heq. rewrite Heq, prefix_app in Hp. done.
      * rewrite append_cons in Heq. injection Heq as _ Heq. simpl.
        specialize (IH b0 eq_refl b' c' Heq). lia.
Qed.

Lemma str_partition_None sep s :
  str_partition sep s = None → ¬ occurs sep s.
Proof.
  induction s as [| a s IH]; rewrite str_partition_eq.
  - destruct (String.prefix sep EmptyString) eqn:Hp; [done |].
    intros _ ([| a' b] & c & Heq); [| by rewrite append_cons in Heq].
    rewrite append_nil in Heq. rewrite Heq, prefix_app in Hp. done.
  - destruct (String.prefix sep (String a s)) eqn:Hp; [done |].
    destruct (str_partition sep s) as [[b0 c0] |] eqn:Hs; [done |].
    intros _ ([| a' b] & c & Heq).
    + rewrite append_nil in Heq. rewrite Heq, prefix_app in Hp. done.
    + rewrite append_cons in Heq. injection Heq as _ Heq.
      apply IH; [done |]. by exists b, c.
Qed.

Lemma str_partition_split sep s b c :
  str_partition sep s = Some (b, c) → split_at_first sep s b c.
Proof.
  intros Hp. split.
  - by apply str_partition_Some.
  - by eapply str_partition_leftmost.
Qed.

Lemma append_inj_l (p s1 s2 : string) : p +:+ s1 = p +:+ s2 → s1 = s2.
Proof.
  induction p as [| a p IH]; [done |].
  rewrite !append_cons. intros [= H]. by apply IH.
Qed.

Lemma append_same_length (b b' t t' : string) :
  b +:+ t = b' +:+ t' → String.length b = String.length b' →
  b = b' ∧ t = t'.
Proof.
  revert b'. induction b as [| a b IH]; intros [| a' b']; try done.
  rewrite !append_cons. simpl.
  intros [= -> Heq] [= Hlen]. destruct (IH b' Heq Hlen) as [-> ->]. done.
Qed.

(** The split at the first occurrence is unique. *)
Lemma split_at_first_unique sep s b c b' c' :
  split_at_first sep s b c → split_at_first sep s b' c' → b = b' ∧ c = c'.
Proof.
  intros [Heq Hmin] [Heq' Hmin'].
  assert (Hlen : String.length b = String.length b').
  { specialize (Hmin b' c' Heq'). specialize (Hmin' b c Heq). lia. }
  rewrite Heq in Heq'.
  destruct (append_same_length _ _ _ _ Heq' Hlen) as [-> Htail].
  split; [done |]. by apply append_inj_l in Htail.
Qed.

(** ** [Compare.get] *)

Section GetProperties.
Variable url_for : string → string → string.
Variable self : Compare.


Lemma get_separator compare_ids b c :
  str_partition "..." compare_ids = Some (b, c) →
  get url_for self compare_ids
  = if decide (b = EmptyString) then
      CompareRun
        (error_page
           "No baseline ID was provided. Expected format: <baseline_id>...<contender_id>"
           None (view_title self)) []
    else if decide (c = EmptyString) then
      CompareRun
        (error_page
           "No contender ID was provided. Expected format: <baseline-id>...<contender-id>"
           None (view_title self)) []
    else CompareRun (render_comparison url_for self b c) [(b, c)].
Proof.
  intros Hp. unfold get, str_contains, str_split1. rewrite Hp.
  rewrite bool_decide_eq_true_2 by eauto. cbn [negb].
  unfold str_truthy, render_comparison.
  destruct (decide (b = EmptyString)); [done |].
  destruct (decide (c = EmptyString)); [done |]. cbn [negb].
  destruct (_compare url_for self b c) as [e | [cs [err |]]]; try done.
  by destruct (decide (length cs = 0%nat)).
Qed.



End GetProperties.

(** ** [Compare._compare] *)

Section CompareProperties.
Variable url_for : string → string → string.
Variable self : Compare.

Lemma side_truthy_present (side : option (gmap string string)) :
  side_well_formed side → side_truthy side = bool_decide (is_Some side).
Proof.
  destruct side as [d |]; simpl; [| done].
  intros [v Hv]. destruct (decide (d = ∅)) as [-> | _]; [| done].
  by rewrite lookup_empty in Hv.
Qed.

Lemma set_compare_benchmarks_url_spec (e : comparison) :
  entry_well_formed e →
  ∃ e', set_compare_benchmarks_url url_for e = inr e'
        ∧ link_follows_sides url_for e e'.
Proof.
  intros [Hb Hc]. unfold set_compare_benchmarks_url.
  rewrite (side_truthy_present _ Hb), (side_truthy_present _ Hc).
  destruct (baseline e) as [bd |] eqn:Hbd, (contender e) as [cd |] eqn:Hcd;
    simpl in *.
  - destruct Hb as [b_id Hb], Hc as [c_id Hc]. rewrite Hb, Hc.
    eexists. split; [done |]. unfold link_follows_sides. simpl.
    rewrite Hbd, Hcd. split; [done |]. split; [done |]. split.
    + split; eauto.
    + intros ? ? [= <-] [= <-]. by exists b_id, c_id.
  - eexists. split; [done |]. unfold link_follows_sides. simpl.
    rewrite Hbd, Hcd. split; [done |]. split; [done |]. split; [| done].
    split; [by intros [? ?] | by intros [_ [? ?]]].
  - eexists. split; [done |]. unfold link_follows_sides. simpl.
    rewrite Hbd, Hcd. split; [done |]. split; [done |]. split; [| done].
    split; [by intros [? ?] | by intros [[? ?] _]].
  - eexists. split; [done |]. unfold link_follows_sides. simpl.
    rewrite Hbd, Hcd. split; [done |]. split; [done |]. split; [| done].
    split; [by intros [? ?] | by intros [[? ?] _]].
Qed.

Lemma set_compare_benchmarks_urls_spec (comparisons : list comparison) :
  Forall entry_well_formed comparisons →
  ∃ comparisons',
    set_compare_benchmarks_urls url_for comparisons = inr comparisons'
    ∧ Forall2 (link_follows_sides url_for) comparisons comparisons'.
Proof.
  induction 1 as [| e comparisons He _ IH]; simpl.
  - exists []. split; [done | constructor].
  - destruct (set_compare_benchmarks_url_spec e He) as (e' & -> & Hlink).
    destruct IH as (comparisons' & -> & Hall).
    exists (e' :: comparisons'). split; [done | by constructor].
Qed.

(** C9. When the comparison comes back without an error, [_compare] returns
    one entry per entry it was given, with the same sides, and an entry has
    a compare-link if and only if its baseline and its contender are both
    present; the link is then built from the two result ids, and a one-sided
    entry has none. *)
Theorem C9_link_iff_both_sides
    (baseline_id contender_id : string)
    (comparisons : list comparison) (errmsg : option string) :
  get_comparisons self baseline_id contender_id = (comparisons, errmsg) →
  errmsg_truthy errmsg = false →
  Forall entry_well_formed comparisons →
  ∃ comparisons',
    _compare url_for self baseline_id contender_id = inr (comparisons', None)
    ∧ Forall2 (link_follows_sides url_for) comparisons comparisons'.
Proof.
  intros Hget Herr Hwf. unfold _compare. rewrite Hget, Herr.
  destruct (set_compare_benchmarks_urls_spec comparisons Hwf)
    as (comparisons' & -> & Hall).
  by exists comparisons'.
Qed.

End CompareProperties.

(** ** Concrete runs of the compare view *)

(** Scenarios C and D: no separator; empty baseline. *)
Example get_scenario_C :
  get example_url_for example_compare_runs "abcxyz"
  = CompareRun
      (error_page "Got unexpected URL path pattern. Expected: <id>...<id>"
                  None "Compare Runs") [].
Proof. reflexivity. Qed.

Example get_scenario_D :
  get example_url_for example_compare_runs "...xyz"
  = CompareRun
      (error_page
         "No baseline ID was provided. Expected format: <baseline_id>...<contender_id>"
         None "Compare Runs") [].
Proof. reflexivity. Qed.

Example get_two_runs :
  get example_url_for example_compare_runs "run-1...run-2"
  = CompareRun
      (page [ Comparison (baseline full_entry) (contender full_entry)
                (Some "/app.compare-benchmark-results/res-b1...res-c1");
              Comparison (baseline baseline_only_entry) None None ]
            "run-1" "run-2")
      [("run-1", "run-2")].
Proof. vm_compute. reflexivity. Qed.


(** C9 on a comparison with one full and one baseline-only entry. *)
Lemma C9_link_iff_both_sides_witness :
  ∃ comparisons',
    _compare example_url_for example_compare_runs "run-1" "run-2"
    = inr (comparisons', None)
    ∧ Forall2 (link_follows_sides example_url_for)
              [full_entry; baseline_only_entry] comparisons'.
Proof.
  apply (C9_link_iff_both_sides example_url_for example_compare_runs
           "run-1" "run-2" [full_entry; baseline_only_entry] None).
  - reflexivity.
  - reflexivity.
  - repeat constructor; simpl; by rewrite lookup_singleton_eq.
Defined.

(** ** Insertion-ordered dictionaries: lookups and keys *)

Section OrderedDictFacts.
Context {K V : Type} `{EqDecision K}.

Lemma dict_get_dict_set (k k' : K) (v : V) d :
  dict_get k' (dict_set k v d)
  = if decide (k' = k) then Some v else dict_get k' d.
Proof.
  induction d as [| [k0 v0] d IH]; simpl.
  - by destruct (decide (k' = k)).
  - destruct (decide (k = k0)) as [-> | Hne]; simpl.
    + by destruct (decide (k' = k0)).
    + destruct (decide (k' = k0)) as [-> | Hne'].
      * by rewrite decide_False by done.
      * exact IH.
Qed.

Lemma dict_get_None (k : K) (d : list (K * V)) :
  dict_get k d = None ↔ k ∉ d.*1.
Proof.
  induction d as [| [k0 v0] d IH]; simpl.
  - split; [intros _; apply not_elem_of_nil | done].
  - rewrite not_elem_of_cons. destruct (decide (k = k0)); [| tauto].
    split; [done | tauto].
Qed.

Lemma dict_get_elem (k : K) (v : V) d :
  NoDup d.*1 → (k, v) ∈ d → dict_get k d = Some v.
Proof.
  induction d as [| [k0 v0] d IH]; simpl; intros Hnd Hin.
  - by apply elem_of_nil in Hin.
  - apply NoDup_cons in Hnd as [Hk0 Hnd].
    apply elem_of_cons in Hin as [[= -> ->] | Hin].
    + by rewrite decide_True.
    + destruct (decide (k = k0)) as [-> | _]; [| by apply IH].
      exfalso. apply Hk0. apply list_elem_of_fmap. by exists (k0, v).
Qed.

Lemma dict_get_Some_elem (k : K) (v : V) d :
  dict_get k d = Some v → (k, v) ∈ d.
Proof.
  induction d as [| [k0 v0] d IH]; simpl; [done |].
  destruct (decide (k = k0)) as [-> | _].
  - intros [= ->]. left.
  - intros Hget. right. by apply IH.
Qed.

Lemma dict_set_fresh (k : K) (v : V) d :
  k ∉ d.*1 → dict_set k v d = d ++ [(k, v)].
Proof.
  induction d as [| [k0 v0] d IH]; simpl; [done |].
  rewrite not_elem_of_cons. intros [Hne Hk].
  rewrite decide_False by done. by rewrite IH.
Qed.

Lemma dict_set_keys (k : K) (v : V) d :
  (dict_set k v d).*1 = if decide (k ∈ d.*1) then d.*1 else d.*1 ++ [k].
Proof.
  induction d as [| [k0 v0] d IH].
  - destruct (decide (k ∈ ([] : list K))) as [Hin | _];
      [by apply elem_of_nil in Hin | done].
  - cbn [dict_set]. destruct (decide (k = k0)) as [-> | Hne];
      rewrite !fmap_cons; cbn [fst].
    + rewrite decide_True by left. done.
    + rewrite IH. destruct (decide (k ∈ d.*1)) as [Hin | Hout].
      * rewrite decide_True by (by right). done.
      * rewrite decide_False; [done |]. rewrite not_elem_of_cons. tauto.
Qed.

Lemma dict_set_NoDup (k : K) (v : V) d :
  NoDup d.*1 → NoDup (dict_set k v d).*1.
Proof.
  intros Hnd. rewrite dict_set_keys.
  destruct (decide (k ∈ d.*1)); [done |].
  apply NoDup_app. split; [done |]. split.
  - intros x Hx Hx'. apply list_elem_of_singleton in Hx'. by subst.
  - apply NoDup_singleton.
Qed.

(** [dict(pairs)] of pairs with distinct keys keeps the pairs. *)
Lemma dict_of_pairs_NoDup (pairs : list (K * V)) :
  NoDup pairs.*1 → dict_of_pairs pairs = pairs.
Proof.
  unfold dict_of_pairs.
  assert (Hgen : ∀ d, NoDup (d ++ pairs).*1 →
            foldl (λ d '(k, v), dict_set k v d) d pairs = d ++ pairs).
  { induction pairs as [| [k v] pairs IH]; intros d Hnd; simpl.
    - by rewrite app_nil_r.
    - rewrite dict_set_fresh.
      + rewrite IH; rewrite <- app_assoc; done.
      + rewrite fmap_app in Hnd. apply NoDup_app in Hnd as (_ & Hdis & _).
        intros Hin. apply (Hdis k Hin). simpl. left. }
  intros Hnd. by apply (Hgen []).
Qed.

Lemma dict_append_lookup (k k' : K) (v : V) (d : list (K * list V)) :
  dict_get k' (dict_append k v d)
  = if decide (k' = k) then Some (default [] (dict_get k d) ++ [v])
    else dict_get k' d.
Proof.
  induction d as [| [k0 vs] d IH]; simpl.
  - by destruct (decide (k' = k)).
  - destruct (decide (k = k0)) as [-> | Hne]; simpl.
    + by destruct (decide (k' = k0)).
    + destruct (decide (k' = k0)) as [-> | Hne'].
      * by rewrite decide_False by done.
      * exact IH.
Qed.

Lemma dict_append_keys (k : K) (v : V) (d : list (K * list V)) :
  (dict_append k v d).*1 = if decide (k ∈ d.*1) then d.*1 else d.*1 ++ [k].
Proof.
  induction d as [| [k0 vs] d IH].
  - destruct (decide (k ∈ ([] : list K))) as [Hin | _];
      [by apply elem_of_nil in Hin | done].
  - cbn [dict_append]. destruct (decide (k = k0)) as [-> | Hne];
      rewrite !fmap_cons; cbn [fst].
    + rewrite decide_True by left. done.
    + rewrite IH. destruct (decide (k ∈ d.*1)) as [Hin | Hout].
      * rewrite decide_True by (by right). done.
      * rewrite decide_False; [done |]. rewrite not_elem_of_cons. tauto.
Qed.

Lemma dict_append_concat (k : K) (v : V) (d : list (K * list V)) :
  concat (dict_append k v d).*2 ≡ₚ concat d.*2 ++ [v].
Proof.
  induction d as [| [k0 vs] d IH]; simpl; [done |].
  destruct (decide (k = k0)) as [-> | Hne]; simpl.
  - rewrite <- !app_assoc. apply Permutation_app_head.
    apply Permutation_app_comm.
  - rewrite IH. by rewrite app_assoc.
Qed.

End OrderedDictFacts.

(** ** Grouping *)

Section GroupingFacts.
Context {K V : Type} `{EqDecision K}.
Variable key : V → K.

Lemma group_into_cons x xs (d : list (K * list V)) :
  group_into key (x :: xs) d = group_into key xs (dict_append (key x) x d).
Proof. reflexivity. Qed.

(** The group stored under [k] after grouping [xs] into [d]: what [d] held
    under [k] followed by the elements of [xs] with key [k], in order; no
    group is created for a key that no element has. *)
Lemma group_into_lookup xs : ∀ (d : list (K * list V)) k,
  dict_get k (group_into key xs d)
  = match dict_get k d, filter (λ x, key x = k) xs with
    | None, [] => None
    | o, f => Some (default [] o ++ f)
    end.
Proof.
  induction xs as [| x xs IH]; intros d k.
  - cbn. destruct (dict_get k d); [by rewrite app_nil_r | done].
  - rewrite group_into_cons, IH, dict_append_lookup, filter_cons.
    destruct (decide (k = key x)) as [-> | Hne].
    + rewrite decide_True by done.
      destruct (dict_get (key x) d) as [vs |]; simpl;
        by rewrite <- ?app_assoc.
    + rewrite decide_False by done. done.
Qed.

Lemma group_into_NoDup xs : ∀ d : list (K * list V),
  NoDup d.*1 → NoDup (group_into key xs d).*1.
Proof.
  induction xs as [| x xs IH]; intros d Hnd; [done |].
  rewrite group_into_cons. apply IH. rewrite dict_append_keys.
  destruct (decide (key x ∈ d.*1)); [done |].
  apply NoDup_app. split; [done |]. split.
  - intros y Hy Hy'. apply list_elem_of_singleton in Hy'. by subst.
  - apply NoDup_singleton.
Qed.

Lemma group_into_concat xs : ∀ d : list (K * list V),
  concat (group_into key xs d).*2 ≡ₚ concat d.*2 ++ xs.
Proof.
  induction xs as [| x xs IH]; intros d.
  - by rewrite app_nil_r.
  - rewrite group_into_cons, IH, dict_append_concat.
    by rewrite <- app_assoc.
Qed.

(** Grouping from the empty dictionary: the keys are distinct, and a pair
    [(k, vs)] is a group exactly when [vs] is the non-empty list of the
    elements with key [k], in their original order. *)
Lemma group_into_elem xs k vs :
  (k, vs) ∈ group_into key xs []
  ↔ vs = filter (λ x, key x = k) xs ∧ vs ≠ [].
Proof.
  pose proof (group_into_NoDup xs [] (NoDup_nil_2)) as Hnd.
  pose proof (group_into_lookup xs [] k) as Hget. simpl in Hget.
  split.
  - intros Hin. apply (dict_get_elem _ _ _ Hnd) in Hin.
    rewrite Hin in Hget.
    destruct (filter (λ x, key x = k) xs); [done |].
    injection Hget as ->. done.
  - intros [-> Hne]. apply dict_get_Some_elem. rewrite Hget.
    by destruct (filter (λ x, key x = k) xs).
Qed.

End GroupingFacts.

(** ** The small helpers of [benchmarks.py] *)

Lemma max_started_at_max_by best rest :
  max_started_at (BMR.started_at best) (BMR.started_at <$> rest)
  = BMR.started_at (max_by_started_at best rest).
Proof.
  revert best. induction rest as [| r rest IH]; intros best; [done |].
  rewrite fmap_cons. cbn [max_started_at max_by_started_at].
  destruct (Qgtb (BMR.started_at r) (BMR.started_at best)); apply IH.
Qed.

(** X1. [time_of_newest_of_many_results] is the [started_at] of the result
    that [newest_of_many_results] returns; both fail on the empty list. *)
Theorem time_of_newest_is_started_at_of_newest (results : list result) :
  time_of_newest_of_many_results results
  = BMR.started_at <$> newest_of_many_results results.
Proof.
  destruct results as [| r rest]; [done |].
  unfold time_of_newest_of_many_results. rewrite fmap_cons.
  cbn [newest_of_many_results]. simpl. f_equal. apply max_started_at_max_by.
Qed.

Lemma slice_to_fmap {A B} (f : A → B) (n : Z) (l : list A) :
  slice_to n (f <$> l) = f <$> slice_to n l.
Proof.
  unfold slice_to. rewrite length_fmap.
  destruct (0 <=? n)%Z; by rewrite fmap_take.
Qed.

Lemma slice_to_sublist {A} (n : Z) (l : list A) : slice_to n l `sublist_of` l.
Proof. unfold slice_to. destruct (0 <=? n)%Z; apply sublist_take. Qed.

Lemma dict_subset_fold {K V} `{EqDecision K} (d : list (K * V)) :
  ∀ (p acc : list (K * V)),
    NoDup (acc ++ p).*1 →
    (∀ k v, (k, v) ∈ p → dict_get k d = Some v) →
    foldl (λ acc k, acc' ← acc; v ← dict_get k d; Some (dict_set k v acc'))
          (Some acc) (p.*1)
    = Some (acc ++ p).
Proof.
  induction p as [| [k v] p IH]; intros acc Hnd Hget.
  - by rewrite app_nil_r.
  - rewrite fmap_cons. cbn [foldl fst].
    rewrite (Hget k v) by left. cbn.
    rewrite dict_set_fresh.
    + rewrite IH.
      * by rewrite <- app_assoc.
      * by rewrite <- app_assoc.
      * intros k' v' Hin. apply Hget. by right.
    + rewrite fmap_app in Hnd. apply NoDup_app in Hnd as (_ & Hdis & _).
      intros Hin. apply (Hdis k Hin). rewrite fmap_cons. left.
Qed.

(** X2. On a dictionary (distinct keys) [get_first_n_dict_subset] never
    raises and returns the first [n] entries in order; a negative [n] drops
    the last [-n] entries instead, and an [n] beyond the size returns the
    whole dictionary. *)
Theorem get_first_n_dict_subset_is_slice {K V} `{EqDecision K}
    (d : list (K * V)) (n : Z) :
  NoDup d.*1 →
  get_first_n_dict_subset d n
  = Some (if (0 <=? n)%Z then take (Z.to_nat n) d
          else take (length d - Z.to_nat (- n)) d).
Proof.
  intros Hnd. unfold get_first_n_dict_subset.
  rewrite slice_to_fmap.
  pose proof (slice_to_sublist n d) as Hsub.
  rewrite (dict_subset_fold d (slice_to n d) []).
  - done.
  - rewrite app_nil_l. eapply sublist_NoDup; [exact Hnd |].
    by apply fmap_sublist.
  - intros k v Hin. apply dict_get_elem; [done |].
    eapply elem_of_sublist; [exact Hin | exact Hsub].
Qed.

Lemma maybe_longer_unit_cases (u : string) :
  maybe_longer_unit u
  = if decide (u = "s") then "seconds"
    else if decide (u = "i/s") then "iterations / second" else u.
Proof.
  unfold maybe_longer_unit, _UNIT_REPLACE_MAP. cbn [list_to_map foldr].
  destruct (decide (u = "s")) as [-> | Hs]; [by rewrite lookup_insert_eq |].
  rewrite lookup_insert_ne by done.
  destruct (decide (u = "i/s")) as [-> | Hi]; [by rewrite lookup_insert_eq |].
  rewrite lookup_insert_ne by done. by rewrite lookup_empty.
Qed.

(** X3. [maybe_longer_unit] changes exactly the units "s" and "i/s", and
    applying it twice is the same as applying it once. *)
Theorem maybe_longer_unit_idempotent (u : string) :
  maybe_longer_unit (maybe_longer_unit u) = maybe_longer_unit u
  ∧ (maybe_longer_unit u ≠ u ↔ u = "s" ∨ u = "i/s").
Proof.
  rewrite !maybe_longer_unit_cases.
  destruct (decide (u = "s")) as [-> | Hs]; [split; [done | split; [tauto | done]] |].
  destruct (decide (u = "i/s")) as [-> | Hi]; [split; [done | split; [tauto | done]] |].
  rewrite decide_False by done. rewrite decide_False by done.
  split; [done |]. split; [done | tauto].
Qed.

(** ** Ranking: permutation and stability *)

Section RankingMore.
Context {K V : Type}.

Lemma insert_by_len_desc_perm (x : K * list V) l :
  insert_by_len_desc x l ≡ₚ x :: l.
Proof.
  induction l as [| y l IH]; simpl; [done |].
  destruct (length y.2 <=? length x.2)%nat; [done |].
  rewrite IH. apply Permutation_swap.
Qed.

Lemma sorted_by_len_desc_perm (l : list (K * list V)) :
  sorted_by_len_desc l ≡ₚ l.
Proof.
  induction l as [| x l IH]; simpl; [done |].
  by rewrite insert_by_len_desc_perm, IH.
Qed.

Lemma insert_by_len_desc_same_length (x : K * list V) l n :
  filter (λ g, length g.2 = n) (insert_by_len_desc x l)
  = filter (λ g, length g.2 = n) (x :: l).
Proof.
  induction l as [| y l IH]; simpl; [done |].
  destruct (length y.2 <=? length x.2)%nat eqn:Hle; [done |].
  apply Nat.leb_gt in Hle.
  rewrite (filter_cons _ y), IH, !(filter_cons _ x), (filter_cons _ y).
  destruct (decide (length y.2 = n)), (decide (length x.2 = n)); try done.
  lia.
Qed.

(** X4. Ranking the series keeps every series exactly once, puts them in
    descending order of their number of results, and keeps series with the
    same number of results in the order in which they were grouped. *)
Theorem ranking_is_stable_descending_permutation (l : list (K * list V)) :
  sorted_by_len_desc l ≡ₚ l
  ∧ StronglySorted longer_or_equal (sorted_by_len_desc l)
  ∧ ∀ n, filter (λ g, length g.2 = n) (sorted_by_len_desc l)
         = filter (λ g, length g.2 = n) l.
Proof.
  split; [apply sorted_by_len_desc_perm |].
  split; [apply sorted_by_len_desc_sorted |].
  intros n. induction l as [| x l IH]; [done |].
  cbn [sorted_by_len_desc foldr].
  rewrite insert_by_len_desc_same_length, !(filter_cons _ x).
  fold (sorted_by_len_desc l). rewrite IH. done.
Qed.

End RankingMore.

(** ** The table: lower bound and completeness *)

Lemma table_rows_all groups :
  table_rows_of (length groups) groups
  = concat ((λ g : group_key * list result, take 3000 g.2) <$> groups).
Proof. unfold table_rows_of. by rewrite firstn_all. Qed.

Lemma capped_rows_length (groups : list (group_key * list result)) :
  (3000 `min` length (concat groups.*2)
   ≤ length (concat ((λ g, take 3000 g.2) <$> groups)))%nat.
Proof.
  induction groups as [| g groups IH]; [simpl; lia |].
  rewrite !fmap_cons. cbn [concat]. rewrite !length_app, length_take. lia.
Qed.

Lemma capped_rows_small (groups : list (group_key * list result)) :
  (length (concat groups.*2) < 3000)%nat →
  concat ((λ g, take 3000 g.2) <$> groups) = concat groups.*2.
Proof.
  induction groups as [| g groups IH]; [done |].
  rewrite !fmap_cons. cbn [concat]. rewrite length_app. intros Hlen.
  rewrite IH by lia. by rewrite take_ge by lia.
Qed.

Lemma table_rows_sublist n (groups : list (group_key * list result)) :
  table_rows_of n groups `sublist_of` concat groups.*2.
Proof.
  revert n. induction groups as [| g groups IH]; intros n.
  - unfold table_rows_of. by rewrite take_nil.
  - destruct n as [| n]; [apply sublist_nil_l |].
    rewrite table_rows_of_cons, fmap_cons. cbn [concat].
    apply sublist_app; [apply sublist_take | apply IH].
Qed.

Lemma ranked_results_perm (matching_results : list result) :
  concat (results_by_hardware_and_context_sorted matching_results).*2
  ≡ₚ matching_results.
Proof.
  unfold results_by_hardware_and_context_sorted,
    results_by_hardware_and_context.
  rewrite sorted_by_len_desc_perm.
  by rewrite group_into_concat.
Qed.

(** X5. Every row of the table is one of the matching results and no
    result is shown more often than it matches; the table holds at least
    3000 rows or else all matching results; and when fewer than 3000 results
    match, the table holds each of them exactly once. *)
Theorem table_shows_matching_results (matching_results : list result) :
  let table :=
    results_for_table
      (results_by_hardware_and_context_sorted matching_results) in
  table ⊆+ matching_results
  ∧ (3000 `min` length matching_results ≤ length table)%nat
  ∧ ((length matching_results < 3000)%nat → table ≡ₚ matching_results).
Proof.
  cbv zeta.
  set (groups := results_by_hardware_and_context_sorted matching_results).
  pose proof (ranked_results_perm matching_results) as Hperm.
  fold groups in Hperm.
  destruct (results_for_table_loop_spec groups [])
    as (n & Hn & Heq & _ & Hstop).
  rewrite app_nil_l in Heq. fold (results_for_table groups) in Heq, Hstop.
  assert (Hsub : results_for_table groups ⊆+ matching_results).
  { rewrite Heq, <- Hperm. apply sublist_submseteq, table_rows_sublist. }
  assert (Hlen : length (concat groups.*2) = length matching_results)
    by (by rewrite Hperm).
  split; [exact Hsub |]. split.
  - destruct Hstop as [-> | Hfull]; [| lia].
    rewrite Heq, table_rows_all, <- Hlen. apply capped_rows_length.
  - intros Hsmall.
    destruct Hstop as [-> | Hfull].
    + rewrite Heq, table_rows_all, capped_rows_small by lia. exact Hperm.
    + apply submseteq_length in Hsub. lia.
Qed.

(** ** The plot entries *)

Section PlotEntries.
Variable url_for : string → string → string.

Lemma infos_for_uplots_loop_lookup groups :
  ∀ infos units_seen infos' units',
    infos_for_uplots_loop url_for groups infos units_seen
    = inr (infos', units') →
    (NoDup infos.*1 → NoDup infos'.*1)
    ∧ ∀ key,
        dict_get key infos'
        = match last (filter (λ g, (3 ≤ length g.2)%nat ∧ plot_key g = key)
                             groups) with
          | Some g => plot_info_of url_for g
          | None => dict_get key infos
          end.
Proof.
  induction groups as [| [[[hwid ctxid] hwname] results] groups IH];
    intros infos units_seen infos' units' Hloop.
  - simpl in Hloop. injection Hloop as <- <-. done.
  - cbn [infos_for_uplots_loop] in Hloop.
    destruct (length results <? 3)%nat eqn:Hlen.
    + apply Nat.ltb_lt in Hlen.
      destruct (IH _ _ _ _ Hloop) as [Hnd Hget].
      split; [exact Hnd |]. intros key.
      rewrite filter_cons, decide_False by (cbn; lia). apply Hget.
    + apply Nat.ltb_ge in Hlen.
      destruct results as [| first rest]; [simpl in Hlen; lia |].
      cbn [newest_of_many_results head] in Hloop.
      destruct (IH _ _ _ _ Hloop) as [Hnd Hget].
      split; [intros Hnd0; by apply Hnd, dict_set_NoDup |].
      intros key. rewrite Hget, filter_cons, dict_get_dict_set.
      unfold plot_key at 2. cbn [fst snd].
      destruct (decide (key = hwid +:+ "_" +:+ ctxid)) as [-> | Hne].
      * rewrite decide_True by (split; [exact Hlen | done]).
        rewrite last_cons.
        by destruct (last (filter _ groups)).
      * rewrite decide_False by (intros [_ Heq]; by apply Hne).
        done.
Qed.

(** X6. The plotting loop never raises. Its keys are distinct, and under a
    key ["{hwid}_{ctxid}"] it leaves the entry of the last ranked series
    with at least three results and that hardware id and context id; a key
    of no such series is absent. Series that differ only in the hardware
    name share one entry. *)
Theorem plot_entry_is_last_ranked_series
    (groups : list (group_key * list result)) :
  ∃ infos,
    infos_for_uplots_loop url_for groups [] ∅
    = inr (infos, plotted_units groups)
    ∧ NoDup infos.*1
    ∧ ∀ key,
        dict_get key infos
        = last (filter (λ g, (3 ≤ length g.2)%nat ∧ plot_key g = key) groups)
            ≫= plot_info_of url_for.
Proof.
  destruct (infos_for_uplots_loop_units url_for groups [] ∅) as (infos & Hloop).
  destruct (infos_for_uplots_loop_lookup groups _ _ _ _ Hloop) as [Hnd Hget].
  rewrite (left_id_L ∅ (∪)) in Hloop.
  exists infos. split; [exact Hloop |].
  split; [apply Hnd; constructor |].
  intros key. rewrite Hget.
  by destruct (last (filter _ groups)).
Qed.

End PlotEntries.

(** A renamed hardware: two series of three results share the key
    ["hw1_ctx1"], and the page shows one plot entry, built from the series
    ranked last. *)
Example renamed_hardware_shares_one_plot :
  (λ p, (λ '(key, info), (key, title info)) <$> infos_for_uplots p)
    <$> rendered (rr_response
          (show_benchmark_results example_url_for choose_first
             (cache_of "bench" renamed_hardware_results) "bench" "case-1"))
  = Some [("hw1_ctx1", "hardware: hw1, context: ctx1, 3 results")]
  ∧ (λ p, BMR.id <$> benchmark_results_for_table p)
      <$> rendered (rr_response
            (show_benchmark_results example_url_for choose_first
               (cache_of "bench" renamed_hardware_results) "bench" "case-1"))
    = Some ["r1"; "r2"; "r3"; "r4"; "r5"; "r6"; "r7"].
Proof. split; vm_compute; reflexivity. Qed.

(** ** Units and outcomes of [show_benchmark_results] *)

Lemma plotted_units_empty_iff (groups : list (group_key * list result)) :
  plotted_units groups = ∅ ↔ ∀ g, g ∈ groups → (length g.2 < 3)%nat.
Proof.
  unfold plotted_units. induction groups as [| g groups IH].
  - split; [intros _ g Hg; by apply elem_of_nil in Hg | done].
  - rewrite filter_cons. destruct (decide (3 ≤ length g.2)%nat) as [Hlen | Hlen].
    + split.
      * rewrite fmap_cons. cbn [concat]. rewrite fmap_app, list_to_set_app_L.
        intros Hempty. apply empty_union_L in Hempty as [Hg _].
        destruct (g.2) as [| r rs] eqn:Hg2; [simpl in Hlen; lia |].
        assert (Hin : BMR.unit r ∈ (list_to_set (BMR.unit <$> r :: rs) : gset string))
          by (apply elem_of_list_to_set; rewrite fmap_cons; left).
        rewrite Hg in Hin. by apply not_elem_of_empty in Hin.
      * intros Hall. specialize (Hall g (list_elem_of_here _ _)). lia.
    + rewrite IH. split.
      * intros Hall g' Hg'. apply elem_of_cons in Hg' as [-> | Hg'];
          [lia | by apply Hall].
      * intros Hall g' Hg'. apply Hall. by right.
Qed.

Lemma ranked_group_elem (matching_results : list result) k rs :
  (k, rs) ∈ results_by_hardware_and_context_sorted matching_results
  ↔ rs = filter (λ r, series_key r = k) matching_results ∧ rs ≠ [].
Proof.
  unfold results_by_hardware_and_context_sorted,
    results_by_hardware_and_context.
  rewrite sorted_by_len_desc_elem.
  apply (group_into_elem series_key).
Qed.

(** X7. For a name the index holds: the handler answers "no results found"
    when no result of the bucket has the case id; it renders a page exactly
    when some series (same hardware id, context id and hardware name) of the
    case has at least three results; and when results match but every series
    has fewer than three, it ends in [KeyError]. *)
Theorem show_benchmark_results_outcomes
    url_for choose c bname caseid bucket :
  entries (by_benchmark_name c) !! bname = Some bucket →
  let matching_results := filter (λ r, BMR.case_id r = caseid) bucket in
  let response :=
    rr_response (show_benchmark_results url_for choose c bname caseid) in
  let some_series_plotted :=
    ∃ k, (3 ≤ length (filter (λ r, series_key r = k) matching_results))%nat in
  (matching_results = [] →
   response = Text ("no results found for benchmark `" +:+ bname
                      +:+ "` and case `" +:+ caseid +:+ "`"))
  ∧ ((∃ p, response = Rendered p) ↔ some_series_plotted)
  ∧ (matching_results ≠ [] → ¬ some_series_plotted →
     response = Raised KeyError).
Proof.
  intros Hbucket. cbv zeta.
  destruct (filter (λ r, BMR.case_id r = caseid) bucket)
    as [| first rest] eqn:Hmatch.
  - split.
    + intros _. unfold show_benchmark_results.
      rewrite (dict_getitem_hit _ _ _ Hbucket), Hmatch. done.
    + split; [| done]. unfold show_benchmark_results.
      rewrite (dict_getitem_hit _ _ _ Hbucket), Hmatch. cbn.
      split; [by intros [p ?] | intros [k Hk]; simpl in Hk; lia].
  - destruct (show_benchmark_results_known url_for choose c bname caseid
                bucket first rest Hbucket Hmatch) as (infos & _ & ->).
    cbn [rr_response].
    set (groups := results_by_hardware_and_context_sorted (first :: rest)).
    assert (Hiff : plotted_units groups ≠ ∅
              ↔ ∃ k, (3 ≤ length (filter (λ r, series_key r = k)
                                         (first :: rest)))%nat).
    { rewrite plotted_units_empty_iff. split.
      - intros Hsome.
        destruct (decide (Exists (λ g, 3 ≤ length g.2)%nat groups))
          as [Hex | Hnex].
        + apply Exists_exists in Hex as ([k rs] & Hin & Hlen).
          apply ranked_group_elem in Hin as [-> _]. by exists k.
        + exfalso. apply Hsome. intros g Hg.
          apply not_Exists_Forall in Hnex; [| intros ?; apply _].
          rewrite Forall_forall in Hnex. specialize (Hnex g Hg).
          simpl in Hnex. lia.
      - intros [k Hk] Hall.
        assert (Hin : (k, filter (λ r, series_key r = k) (first :: rest))
                      ∈ groups).
        { apply ranked_group_elem. split; [done |].
          intros Hnil. rewrite Hnil in Hk. simpl in Hk. lia. }
        specialize (Hall _ Hin). simpl in Hall. lia. }
    split; [done |]. split.
    + split.
      * intros [p Hp]. apply Hiff. intros Hempty.
        by rewrite decide_True in Hp.
      * intros Hsome. apply Hiff in Hsome.
        rewrite decide_False by done. by eexists.
    + intros _ Hnone. rewrite decide_True; [done |].
      destruct (decide (plotted_units groups = ∅)) as [? | Hne]; [done |].
      by apply Hiff in Hne.
Qed.

(** X8. When all plotted series of a case carry one and the same unit, no
    warning is logged and the axis is labelled with the display form of that
    unit, whatever element [set.pop] is free to return. *)
Theorem single_unit_no_warning url_for choose c bname caseid bucket u :
  (∀ s : gset string, s ≠ ∅ → choose s ∈ s) →
  entries (by_benchmark_name c) !! bname = Some bucket →
  plotted_units
    (results_by_hardware_and_context_sorted
       (filter (λ r, BMR.case_id r = caseid) bucket)) = {[u]} →
  ∃ p,
    show_benchmark_results url_for choose c bname caseid
    = ResultsRun (Rendered p) c []
    ∧ y_unit_for_all_plots p = maybe_longer_unit u.
Proof.
  intros Hchoose Hbucket Hunits.
  destruct (filter (λ r, BMR.case_id r = caseid) bucket)
    as [| first rest] eqn:Hmatch.
  { change (plotted_units (results_by_hardware_and_context_sorted []))
      with (plotted_units []) in Hunits.
    rewrite plotted_units_nil in Hunits. symmetry in Hunits.
    by apply non_empty_singleton_L in Hunits. }
  destruct (show_benchmark_results_known url_for choose c bname caseid
              bucket first rest Hbucket Hmatch) as (infos & _ & ->).
  rewrite Hunits.
  assert (Hne : ({[u]} : gset string) ≠ ∅) by apply non_empty_singleton_L.
  rewrite decide_False by exact Hne.
  rewrite decide_True by apply size_singleton.
  eexists. split; [done |]. cbn.
  specialize (Hchoose {[u]} Hne). apply elem_of_singleton in Hchoose.
  by rewrite Hchoose.
Qed.

(** ** [show_benchmark_cases] *)

Lemma newest_of_many_results_spec (results : list result) r :
  newest_of_many_results results = Some r →
  r ∈ results
  ∧ ∀ r', r' ∈ results → (BMR.started_at r' <= BMR.started_at r)%Q.
Proof.
  destruct results as [| first rest]; [done |]. intros [= <-].
  destruct (max_by_started_at_spec first rest) as (i & Hi & Hmax & _).
  split; [| exact Hmax]. apply list_elem_of_lookup. by exists i.
Qed.

Lemma show_benchmark_cases_known c bname bucket :
  entries (by_benchmark_name c) !! bname = Some bucket →
  ∃ last_result_per_case_id,
    Forall2 (λ g l, l.1 = g.1 ∧ newest_of_many_results g.2 = Some l.2)
            (group_into BMR.case_id bucket []) last_result_per_case_id
    ∧ show_benchmark_cases c bname
      = (Rendered {|
           cp_benchmark_name := bname;
           cp_results_by_case_id := group_into BMR.case_id bucket [];
           cp_hardware_count_per_case_id :=
             (λ '(case_id, results),
                (case_id, count_distinct BMR.hardware_id results))
               <$> group_into BMR.case_id bucket [];
           cp_last_result_per_case_id := last_result_per_case_id;
           cp_context_count_per_case_id :=
             (λ '(case_id, results),
                (case_id, count_distinct BMR.context_id results))
               <$> group_into BMR.case_id bucket [];
           cp_benchmark_result_count := length bucket |}, c).
Proof.
  intros Hbucket. unfold show_benchmark_cases.
  assert (Hc : dict_contains (by_benchmark_name c) bname = true).
  { apply dict_contains_keys. unfold dict_keys. apply elem_of_dom. eauto. }
  rewrite Hc, (dict_getitem_hit _ _ _ Hbucket), set_by_benchmark_name_id.
  cbn [negb].
  destruct (mapM (λ '(case_id, results),
                    pair case_id <$> newest_of_many_results results)
                 (group_into BMR.case_id bucket [])) as [last |] eqn:Hlast.
  - exists last. split; [| done].
    apply mapM_Some in Hlast.
    eapply Forall2_impl; [exact Hlast |].
    intros [case_id results] [case_id' r] Heq. simpl in *.
    destruct (newest_of_many_results results); [| done].
    by injection Heq as -> ->.
  - exfalso. apply mapM_None in Hlast.
    apply Exists_exists in Hlast as ([case_id results] & Hin & Hnone).
    apply group_into_elem in Hin as [_ Hne].
    destruct results; [done |]. done.
Qed.

(** X9. [show_benchmark_cases] never raises and never changes the cache;
    it answers "benchmark name not known" exactly for the names that are not
    keys of the index, on either kind of dictionary. *)
Theorem show_benchmark_cases_is_read_only c bname :
  ∃ r,
    show_benchmark_cases c bname = (r, c)
    ∧ (∀ e, r ≠ Raised e)
    ∧ (r = Text ("benchmark name not known: `" +:+ bname +:+ "`")
       ↔ bname ∉ dict_keys (by_benchmark_name c)).
Proof.
  destruct (entries (by_benchmark_name c) !! bname) as [bucket |] eqn:Hbucket.
  - destruct (show_benchmark_cases_known c bname bucket Hbucket)
      as (last & _ & ->).
    eexists. split; [done |]. split; [done |]. split; [done |].
    intros Hout. exfalso. apply Hout. unfold dict_keys.
    apply elem_of_dom. eauto.
  - assert (Hout : bname ∉ dict_keys (by_benchmark_name c))
      by (unfold dict_keys; by apply not_elem_of_dom).
    rewrite (show_benchmark_cases_unknown c bname Hout).
    eexists. split; [done |]. split; [done |]. done.
Qed.

(** X10. For a known name the case page counts every result of the bucket,
    lists each case id once, and under a case id the results of the bucket
    with that case id, in bucket order; it lists no case without results. *)
Theorem show_benchmark_cases_groups_by_case c bname bucket :
  entries (by_benchmark_name c) !! bname = Some bucket →
  ∃ p,
    show_benchmark_cases c bname = (Rendered p, c)
    ∧ cp_benchmark_result_count p = length bucket
    ∧ NoDup (cp_results_by_case_id p).*1
    ∧ (∀ case_id results,
         (case_id, results) ∈ cp_results_by_case_id p
         ↔ results = filter (λ r, BMR.case_id r = case_id) bucket
           ∧ results ≠ [])
    ∧ concat (cp_results_by_case_id p).*2 ≡ₚ bucket.
Proof.
  intros Hbucket.
  destruct (show_benchmark_cases_known c bname bucket Hbucket)
    as (last & _ & ->).
  eexists. split; [done |]. cbn.
  split; [done |].
  split; [apply group_into_NoDup; constructor |].
  split; [intros case_id results; apply group_into_elem |].
  by rewrite group_into_concat.
Qed.

Lemma Forall2_keys {A B} (f : A → string) (g : B → string) (P : A → B → Prop)
    (l : list A) (k : list B) :
  Forall2 P l k → (∀ x y, P x y → g y = f x) → g <$> k = f <$> l.
Proof.
  intros Hall Hkey. induction Hall as [| x y l k Hxy _ IH]; [done |].
  rewrite !fmap_cons, IH. f_equal. by apply Hkey.
Qed.

(** X11. The case page names a last result for exactly the listed cases,
    in the same order; the last result of a case is a result of the bucket
    with that case id, and no result of that case started later. *)
Theorem show_benchmark_cases_last_result c bname bucket :
  entries (by_benchmark_name c) !! bname = Some bucket →
  ∃ p,
    show_benchmark_cases c bname = (Rendered p, c)
    ∧ (cp_last_result_per_case_id p).*1 = (cp_results_by_case_id p).*1
    ∧ ∀ case_id r,
        (case_id, r) ∈ cp_last_result_per_case_id p →
        r ∈ bucket
        ∧ BMR.case_id r = case_id
        ∧ ∀ r', r' ∈ bucket → BMR.case_id r' = case_id →
                (BMR.started_at r' <= BMR.started_at r)%Q.
Proof.
  intros Hbucket.
  destruct (show_benchmark_cases_known c bname bucket Hbucket)
    as (last & Hlast & ->).
  eexists. split; [done |]. cbn. split.
  - eapply Forall2_keys; [exact Hlast |]. by intros x y [? _].
  - intros case_id r Hin.
    apply list_elem_of_lookup in Hin as [i Hi].
    destruct (Forall2_lookup_r _ _ _ _ _ Hlast Hi)
      as ([case_id' results] & Hg & Hkey & Hnewest).
    simpl in Hkey, Hnewest. subst case_id'.
    assert (Hgroup : (case_id, results) ∈ group_into BMR.case_id bucket [])
      by (apply list_elem_of_lookup; eauto).
    apply group_into_elem in Hgroup as [-> _].
    apply newest_of_many_results_spec in Hnewest as [Hr Hmax].
    apply list_elem_of_filter in Hr as [Hcase Hr].
    split; [exact Hr |]. split; [exact Hcase |].
    intros r' Hr' Hcase'. apply Hmax. by apply list_elem_of_filter.
Qed.

(** ** What [show_benchmark_results] does to the cache *)

Lemma show_benchmark_results_cache url_for choose c bname caseid :
  rr_cache (show_benchmark_results url_for choose c bname caseid)
  = set_by_benchmark_name c (dict_getitem (by_benchmark_name c) bname).2.
Proof.
  unfold show_benchmark_results.
  destruct (dict_getitem (by_benchmark_name c) bname) as [[e | v] d];
    [done |]. cbn [snd].
  destruct (filter _ v); [done |].
  destruct (infos_for_uplots_loop _ _ _ _) as [e | [infos units]]; [done |].
  by destruct (set_pop _ _) as [e | [u s]].
Qed.

Lemma show_benchmark_results_adds_empty_bucket
    url_for choose c bname caseid :
  kind (by_benchmark_name c) = defaultdict_list →
  entries (by_benchmark_name c) !! bname = None →
  entries (by_benchmark_name
             (rr_cache (show_benchmark_results url_for choose c bname caseid)))
  = <[bname := []]> (entries (by_benchmark_name c)).
Proof.
  intros Hkind Hnone. rewrite show_benchmark_results_cache.
  unfold dict_getitem. by rewrite Hnone, Hkind.
Qed.

(** X12. [show_benchmark_results] leaves [by_id], the kind of the index and
    every bucket the index holds as they are. The one change it can make is
    to add the requested name with an empty bucket, and it does so exactly
    when the index is a [defaultdict(list)] that lacks the name. Repeating
    the request changes nothing further. *)
Theorem show_benchmark_results_cache_effect url_for choose c bname caseid :
  let c' := rr_cache (show_benchmark_results url_for choose c bname caseid) in
  by_id c' = by_id c
  ∧ kind (by_benchmark_name c') = kind (by_benchmark_name c)
  ∧ entries (by_benchmark_name c')
    = match kind (by_benchmark_name c),
            entries (by_benchmark_name c) !! bname with
      | defaultdict_list, None => <[bname := []]> (entries (by_benchmark_name c))
      | _, _ => entries (by_benchmark_name c)
      end
  ∧ rr_cache (show_benchmark_results url_for choose c' bname caseid) = c'.
Proof.
  cbv zeta. rewrite !show_benchmark_results_cache.
  destruct c as [ids [k m]]. unfold dict_getitem. cbn.
  destruct (m !! bname) as [v |] eqn:Hm; cbn.
  - rewrite Hm. by destruct k.
  - destruct k; cbn.
    + by rewrite Hm.
    + by rewrite lookup_insert_eq.
Qed.

(** ** Stable sorting *)

Section SortedFacts.
Context {A K : Type} (lt : K → K → bool) (key : A → K).
Hypothesis lt_asym : ∀ a b, lt a b = true → lt b a = false.
Hypothesis le_trans :
  ∀ a b c, lt b a = false → lt c b = false → lt c a = false.

Lemma insert_sorted_perm reverse (x : A) l :
  insert_sorted lt key reverse x l ≡ₚ x :: l.
Proof.
  induction l as [| y l IH]; simpl; [done |].
  destruct (stays_before lt key reverse x y); [done |].
  rewrite IH. apply Permutation_swap.
Qed.

Lemma sorted_perm reverse (l : list A) : sorted lt key reverse l ≡ₚ l.
Proof.
  induction l as [| x l IH]; simpl; [done |].
  by rewrite insert_sorted_perm, IH.
Qed.

Lemma stays_before_trans reverse (x y z : A) :
  stays_before lt key reverse x y = true →
  stays_before lt key reverse y z = true →
  stays_before lt key reverse x z = true.
Proof.
  unfold stays_before. destruct reverse; rewrite !negb_true_iff; eauto.
Qed.

Lemma stays_before_flip reverse (x y : A) :
  stays_before lt key reverse x y = false →
  stays_before lt key reverse y x = true.
Proof.
  unfold stays_before.
  destruct reverse; rewrite negb_false_iff, negb_true_iff; eauto.
Qed.

Lemma insert_sorted_sorted reverse (x : A) l :
  StronglySorted (λ a b, stays_before lt key reverse a b = true) l →
  StronglySorted (λ a b, stays_before lt key reverse a b = true)
                 (insert_sorted lt key reverse x l).
Proof.
  induction 1 as [| y l Hl IH Hy]; simpl.
  - repeat constructor.
  - destruct (stays_before lt key reverse x y) eqn:Hxy.
    + constructor; [by constructor |].
      constructor; [exact Hxy |].
      eapply Forall_impl; [exact Hy |].
      intros z Hyz. by eapply stays_before_trans.
    + constructor; [exact IH |].
      apply Forall_forall. intros z Hz.
      rewrite insert_sorted_perm in Hz.
      apply elem_of_cons in Hz as [-> | Hz].
      * by apply stays_before_flip.
      * rewrite Forall_forall in Hy. by apply Hy.
Qed.

Lemma sorted_sorted reverse (l : list A) :
  StronglySorted (λ a b, stays_before lt key reverse a b = true)
                 (sorted lt key reverse l).
Proof.
  induction l as [| x l IH]; simpl; [constructor |].
  by apply insert_sorted_sorted.
Qed.

End SortedFacts.

Lemma Qltb_asym (a b : Q) : Qltb a b = true → Qltb b a = false.
Proof.
  unfold Qltb. rewrite Qgtb_true, Qgtb_false. apply Qlt_le_weak.
Qed.

Lemma Qltb_le_trans (a b c : Q) :
  Qltb b a = false → Qltb c b = false → Qltb c a = false.
Proof.
  unfold Qltb. rewrite !Qgtb_false. intros Hab Hbc. by eapply Qle_trans.
Qed.

Lemma string_ltb_lt (a b : string) :
  String.ltb a b = true ↔ OrderedTypeEx.String_as_OT.lt a b.
Proof.
  rewrite <- OrderedTypeEx.String_as_OT.cmp_lt.
  unfold String.ltb, OrderedTypeEx.String_as_OT.cmp.
  destruct (String.compare a b); split; congruence.
Qed.

Lemma string_ltb_asym (a b : string) :
  String.ltb a b = true → String.ltb b a = false.
Proof.
  unfold String.ltb. rewrite (String.compare_antisym b a).
  by destruct (String.compare a b).
Qed.

Lemma string_ltb_le_trans (a b c : string) :
  String.ltb b a = false → String.ltb c b = false → String.ltb c a = false.
Proof.
  intros Hab Hbc. destruct (String.ltb c a) eqn:Hca; [| done].
  apply string_ltb_lt in Hca.
  destruct (String.compare b a) eqn:Hcmp.
  - apply String.compare_eq_iff in Hcmp. subst.
    apply string_ltb_lt in Hca. congruence.
  - unfold String.ltb in Hab. by rewrite Hcmp in Hab.
  - assert (Hlt : OrderedTypeEx.String_as_OT.lt a b).
    { apply string_ltb_lt. unfold String.ltb.
      rewrite (String.compare_antisym a b), Hcmp. done. }
    pose proof (OrderedTypeEx.String_as_OT.lt_trans _ _ _ Hca Hlt) as Hcb.
    apply string_ltb_lt in Hcb. congruence.
Qed.

(** ** [list_benchmarks] *)

Lemma StronglySorted_fmap_impl {A B} (f : A → B)
    (R : relation A) (R' : relation B) (l : list A) :
  StronglySorted R l → (∀ x y, R x y → R' (f x) (f y)) →
  StronglySorted R' (f <$> l).
Proof.
  intros Hsorted Himpl. induction Hsorted as [| x l _ IH Hx]; [constructor |].
  rewrite fmap_cons. constructor; [exact IH |].
  apply Forall_fmap. eapply Forall_impl; [exact Hx |].
  intros y Hxy. by apply Himpl.
Qed.

Section ListBenchmarksFacts.
Variable lower : string → string.

Lemma list_benchmarks_empty_bucket
    (c : cache) (items : list (string * list result)) bname :
  (bname, []) ∈ items → list_benchmarks lower c items = Raised ValueError.
Proof.
  intros Hin. unfold list_benchmarks.
  rewrite (mapM_None_2 _ items); [done |].
  apply Exists_exists. by exists (bname, []).
Qed.

(** X13. [list_benchmarks] raises [ValueError] exactly when the index
    holds a name with an empty bucket, and renders its page exactly when
    every bucket holds a result. *)
Theorem list_benchmarks_raises_iff_empty_bucket
    (c : cache) (items : list (string * list result)) :
  (list_benchmarks lower c items = Raised ValueError
   ↔ ∃ bname, (bname, []) ∈ items)
  ∧ ((∃ p, list_benchmarks lower c items = Rendered p)
     ↔ ∀ bname bmrlist, (bname, bmrlist) ∈ items → bmrlist ≠ []).
Proof.
  unfold list_benchmarks.
  destruct (mapM (λ '(bname, bmrlist),
                    pair bname <$> newest_of_many_results bmrlist) items)
    as [newest_pairs |] eqn:Hnewest.
  - apply mapM_Some in Hnewest.
    assert (Hall : ∀ bname bmrlist, (bname, bmrlist) ∈ items → bmrlist ≠ []).
    { intros bname bmrlist Hin ->.
      apply list_elem_of_lookup in Hin as [i Hi].
      destruct (Forall2_lookup_l _ _ _ _ _ Hnewest Hi) as (y & _ & Hy).
      done. }
    split.
    + split; [done |]. intros [bname Hin]. by apply Hall in Hin.
    + split; [done |]. intros _. by eexists.
  - apply mapM_None in Hnewest.
    apply Exists_exists in Hnewest as ([bname bmrlist] & Hin & Hnone).
    destruct bmrlist as [| r rest]; [| done].
    split.
    + split; [| done]. intros _. by exists bname.
    + split; [by intros [p ?] |]. intros Hall. by apply Hall in Hin.
Qed.

(** X14. On an index with distinct names, the page [list_benchmarks]
    renders lists the benchmarks, each once, in ascending order of the
    lower-cased name, and shows the first 15 of the newest results of the
    benchmarks (one per benchmark) taken in descending order of
    [started_at]. *)
Theorem list_benchmarks_page
    (c : cache) (items : list (string * list result)) p :
  NoDup items.*1 →
  list_benchmarks lower c items = Rendered p →
  bp_benchmarks_by_name_sorted_alphabetically p ≡ₚ items
  ∧ StronglySorted (λ x y, String.ltb (lower y.1) (lower x.1) = false)
                   (bp_benchmarks_by_name_sorted_alphabetically p)
  ∧ bp_benchmark_result_count p = size (by_id c)
  ∧ ∃ newest_sorted newest_in_order,
      Forall2 (λ item r, newest_of_many_results item.2 = Some r)
              items newest_in_order
      ∧ newest_sorted ≡ₚ newest_in_order
      ∧ StronglySorted
          (λ r1 r2, (BMR.started_at r2 <= BMR.started_at r1)%Q) newest_sorted
      ∧ bp_newest_result_for_each_benchmark_name_topN p
        = take 15 newest_sorted.
Proof.
  intros Hnd. unfold list_benchmarks.
  destruct (mapM (λ '(bname, bmrlist),
                    pair bname <$> newest_of_many_results bmrlist) items)
    as [newest_pairs |] eqn:Hnewest; [| done].
  intros [= <-]. cbn.
  apply mapM_Some in Hnewest.
  assert (Hsorted_keys :
            NoDup (sorted String.ltb (λ item : string * list result,
                                        lower item.1) false items).*1).
  { assert (Hp : (sorted String.ltb (λ item : string * list result,
                                       lower item.1) false items).*1
                  ≡ₚ items.*1) by apply fmap_Permutation, sorted_perm.
    by rewrite Hp. }
  rewrite (dict_of_pairs_NoDup _ Hsorted_keys).
  split; [apply sorted_perm |]. split.
  { pose proof (sorted_sorted String.ltb
                  (λ item : string * list result, lower item.1)
                  string_ltb_asym string_ltb_le_trans false items) as Hs.
    rewrite <- (list_fmap_id (sorted _ _ _ _)).
    eapply StronglySorted_fmap_impl; [exact Hs |].
    intros x y Hxy. unfold stays_before in Hxy.
    by apply negb_true_iff in Hxy. }
  split; [done |].
  assert (Hkeys : newest_pairs.*1 = items.*1).
  { eapply Forall2_keys; [exact Hnewest |].
    intros [bname bmrlist] [bname' r] Heq. simpl in *.
    destruct (newest_of_many_results bmrlist); [| done].
    by injection Heq as -> _. }
  rewrite dict_of_pairs_NoDup by (by rewrite Hkeys).
  exists (snd <$> sorted Qltb (λ item : string * result,
                                 BMR.started_at item.2) true newest_pairs),
         (snd <$> newest_pairs).
  split.
  { apply Forall2_fmap_r. eapply Forall2_impl; [exact Hnewest |].
    intros [bname bmrlist] [bname' r] Heq. simpl in *.
    destruct (newest_of_many_results bmrlist); [| done].
    by injection Heq as _ ->. }
  split; [apply fmap_Permutation, sorted_perm |].
  split; [| done].
  pose proof (sorted_sorted Qltb
                (λ item : string * result, BMR.started_at item.2)
                Qltb_asym Qltb_le_trans true newest_pairs) as Hs.
  eapply StronglySorted_fmap_impl; [exact Hs |].
  intros x y Hxy. unfold stays_before in Hxy.
  apply negb_true_iff in Hxy. unfold Qltb in Hxy.
  by apply Qgtb_false in Hxy.
Qed.

(** X15. After [show_benchmark_results] was asked for a name that the
    [defaultdict(list)] index did not hold, the index holds that name with
    an empty bucket: every later [list_benchmarks] raises [ValueError], and
    [show_benchmark_cases] of that name no longer answers "not known" but
    renders a page without cases. *)
Theorem unknown_lookup_breaks_listing
    url_for choose c bname caseid (items : list (string * list result)) :
  kind (by_benchmark_name c) = defaultdict_list →
  bname ∉ dict_keys (by_benchmark_name c) →
  let c' := rr_cache (show_benchmark_results url_for choose c bname caseid) in
  items ≡ₚ map_to_list (entries (by_benchmark_name c')) →
  list_benchmarks lower c' items = Raised ValueError
  ∧ show_benchmark_cases c' bname
    = (Rendered {|
         cp_benchmark_name := bname;
         cp_results_by_case_id := [];
         cp_hardware_count_per_case_id := [];
         cp_last_result_per_case_id := [];
         cp_context_count_per_case_id := [];
         cp_benchmark_result_count := 0 |}, c').
Proof.
  intros Hkind Hout. cbv zeta.
  unfold dict_keys in Hout. apply not_elem_of_dom in Hout.
  pose proof (show_benchmark_results_adds_empty_bucket url_for choose c bname
                caseid Hkind Hout) as Hentries.
  set (c' := rr_cache (show_benchmark_results url_for choose c bname caseid))
    in *.
  assert (Hbucket : entries (by_benchmark_name c') !! bname = Some [])
    by (rewrite Hentries; apply lookup_insert_eq).
  intros Hitems. split.
  - apply (list_benchmarks_empty_bucket _ _ bname).
    rewrite Hitems. by apply elem_of_map_to_list.
  - destruct (show_benchmark_cases_known c' bname [] Hbucket)
      as (last & Hlast & ->).
    cbn in Hlast. apply Forall2_nil_inv_l in Hlast as ->. done.
Qed.

End ListBenchmarksFacts.

Example list_benchmarks_three_names :
  (λ p, ((bp_benchmarks_by_name_sorted_alphabetically p).*1,
         BMR.id <$> bp_newest_result_for_each_benchmark_name_topN p))
    <$> rendered (list_benchmarks ascii_lower empty_cache example_items)
  = Some (["join"; "Parse"; "sort"], ["p1"; "s2"; "j1"]).
Proof. vm_compute. reflexivity. Qed.

(** ** [all_keys] *)

Lemma StronglySorted_strict {A} (le lt : relation A) (l : list A) :
  (∀ x y, le x y → x ≠ y → lt x y) →
  StronglySorted le l → NoDup l → StronglySorted lt l.
Proof.
  intros Hstrict Hsorted. induction Hsorted as [| x l _ IH Hx]; intros Hnd.
  - constructor.
  - apply NoDup_cons in Hnd as [Hx' Hnd]. constructor; [by apply IH |].
    apply Forall_forall. intros y Hy. apply Hstrict.
    + rewrite Forall_forall in Hx. by apply Hx.
    + intros ->. by apply Hx'.
Qed.

Lemma string_not_ltb_ne (x y : string) :
  String.ltb y x = false → x ≠ y → String.ltb x y = true.
Proof.
  unfold String.ltb. rewrite (String.compare_antisym y x).
  destruct (String.compare x y) eqn:Hcmp; try done.
  apply String.compare_eq_iff in Hcmp. done.
Qed.

(** X16. [all_keys] returns, in strictly ascending order and so without
    repetition, exactly the keys found under [attr] in the first or in the
    second dictionary; [None] counts as an empty dictionary, and the order of
    the two dictionaries does not matter. *)
Theorem all_keys_sorted_union
    (dict1 dict2 : option (gmap string (gmap string string))) (attr : string) :
  StronglySorted (λ x y, String.ltb x y = true) (all_keys dict1 dict2 attr)
  ∧ (∀ k, k ∈ all_keys dict1 dict2 attr
          ↔ (∃ d vs, dict1 = Some d ∧ d !! attr = Some vs ∧ is_Some (vs !! k))
            ∨ (∃ d vs, dict2 = Some d ∧ d !! attr = Some vs ∧ is_Some (vs !! k)))
  ∧ all_keys dict1 dict2 attr = all_keys dict2 dict1 attr.
Proof.
  unfold all_keys. cbv zeta.
  set (keys1 := dom (default ∅ (default ∅ dict1 !! attr))).
  set (keys2 := dom (default ∅ (default ∅ dict2 !! attr))).
  assert (Hkeys : ∀ (dict : option (gmap string (gmap string string))) k,
            k ∈ dom (default ∅ (default ∅ dict !! attr))
            ↔ ∃ d vs, dict = Some d ∧ d !! attr = Some vs ∧ is_Some (vs !! k)).
  { intros dict k. rewrite elem_of_dom. split.
    - destruct dict as [d |]; simpl.
      + destruct (d !! attr) as [vs |] eqn:Hattr; simpl.
        * intros Hk. by exists d, vs.
        * rewrite lookup_empty. by intros [? ?].
      + rewrite lookup_empty. simpl. rewrite lookup_empty. by intros [? ?].
    - intros (d & vs & -> & Hattr & Hk). simpl. by rewrite Hattr. }
  split; [| split].
  - eapply StronglySorted_strict;
      [| apply (sorted_sorted String.ltb id string_ltb_asym
                  string_ltb_le_trans false) |].
    + intros x y Hle Hne. unfold stays_before in Hle.
      apply negb_true_iff in Hle. by apply string_not_ltb_ne.
    + rewrite sorted_perm. apply NoDup_elements.
  - intros k. rewrite sorted_perm, elem_of_elements, elem_of_union.
    fold keys1 keys2. unfold keys1, keys2. by rewrite !Hkeys.
  - by rewrite (comm_L (∪) keys1 keys2).
Qed.

Example all_keys_of_two_results :
  all_keys (Some example_baseline) (Some example_contender) "tags"
  = ["compression"; "dataset"; "name"]
  ∧ all_keys None (Some example_contender) "tags" = ["compression"; "name"]
  ∧ all_keys (Some example_baseline) None "info" = [].
Proof. repeat split; vm_compute; reflexivity. Qed.

(** ** More on [Compare.get] and [Compare._compare] *)

Lemma occurs_cons sep a (s : string) :
  occurs sep s → occurs sep (String a s).
Proof. intros (b & c & ->). by exists (String a b), c. Qed.

Lemma split_prefix_unique (b b' c c' : string) :
  b' +:+ "..." +:+ c' = b +:+ "..." +:+ c →
  (String.length b' ≤ String.length b)%nat →
  ¬ occurs "." b → b' = b.
Proof.
  revert b'. induction b as [| a b IH]; intros b' Heq Hlen Hdot.
  - destruct b'; [done | simpl in Hlen; lia].
  - destruct b' as [| a' b'].
    + rewrite append_nil, append_cons in Heq.
      injection Heq as <- _. exfalso. apply Hdot. by exists EmptyString, b.
    + rewrite !append_cons in Heq. injection Heq as -> Heq.
      f_equal. apply IH; [exact Heq | simpl in Hlen; lia |].
      intros Hocc. by apply Hdot, occurs_cons.
Qed.

Lemma str_partition_assembled (b_id c_id : string) :
  ¬ occurs "." b_id →
  str_partition "..." (b_id +:+ "..." +:+ c_id) = Some (b_id, c_id).
Proof.
  intros Hdot.
  destruct (str_partition "..." (b_id +:+ "..." +:+ c_id))
    as [[b' c'] |] eqn:Hp.
  - destruct (str_partition_split _ _ _ _ Hp) as [Heq Hmin].
    assert (b' = b_id) as ->.
    { eapply split_prefix_unique; [symmetry; exact Heq | | exact Hdot].
      by apply (Hmin b_id c_id). }
    apply append_inj_l, append_inj_l in Heq. by subst.
  - exfalso. apply (str_partition_None _ _ Hp). by exists b_id, c_id.
Qed.

Section GetMore.
Variable url_for : string → string → string.
Variable self : Compare.


(** X18. A token assembled as ["{b_id}...{c_id}"] from two non-empty ids,
    as [_compare] does for its links, is taken apart by [get] into the same
    two ids, provided the first id contains no dot. *)
Theorem get_parses_assembled_token (b_id c_id : string) :
  b_id ≠ EmptyString → c_id ≠ EmptyString → ¬ occurs "." b_id →
  get url_for self (b_id +:+ "..." +:+ c_id)
  = CompareRun (render_comparison url_for self b_id c_id) [(b_id, c_id)].
Proof.
  intros Hb Hc Hdot.
  rewrite (get_separator _ _ _ _ _ (str_partition_assembled _ _ Hdot)).
  rewrite decide_False by done. by rewrite decide_False by done.
Qed.

Lemma get_well_formed_token (compare_ids b c : string) :
  split_at_first "..." compare_ids b c →
  b ≠ EmptyString → c ≠ EmptyString →
  get url_for self compare_ids
  = CompareRun (render_comparison url_for self b c) [(b, c)].
Proof.
  intros Hsplit Hb Hc.
  destruct (str_partition "..." compare_ids) as [[b' c'] |] eqn:Hp.
  - pose proof (str_partition_split _ _ _ _ Hp) as Hsplit'.
    destruct (split_at_first_unique _ _ _ _ _ _ Hsplit Hsplit') as [<- <-].
    rewrite (get_separator _ _ _ _ _ Hp).
    rewrite decide_False by done. by rewrite decide_False by done.
  - exfalso. apply (str_partition_None _ _ Hp). exists b, c. apply Hsplit.
Qed.

(** X19. When the comparison comes back with a non-empty error message,
    [get] answers with the page "cannot perform comparison: <message>" at
    alert level "info"; the entries that came with the message are not
    looked at, so none of them can make the request fail. *)
Theorem get_reports_resolution_failure
    (compare_ids b c msg : string) (comparisons : list comparison) :
  split_at_first "..." compare_ids b c →
  b ≠ EmptyString → c ≠ EmptyString →
  get_comparisons self b c = (comparisons, Some msg) →
  msg ≠ EmptyString →
  cr_response (get url_for self compare_ids)
  = error_page ("cannot perform comparison: " +:+ msg) (Some "info")
               (view_title self).
Proof.
  intros Hsplit Hb Hc Hcmp Hmsg.
  rewrite (get_well_formed_token _ _ _ Hsplit Hb Hc). cbn [cr_response].
  unfold render_comparison, _compare. rewrite Hcmp.
  unfold errmsg_truthy, str_truthy. by rewrite decide_False by done.
Qed.

(** X20. An empty error message counts as no error: a comparison that
    comes back with no entries and the message [""] is answered with the
    page "comparison yielded 0 benchmark results", not with "cannot perform
    comparison". *)
Theorem get_empty_error_message_is_no_error (compare_ids b c : string) :
  split_at_first "..." compare_ids b c →
  b ≠ EmptyString → c ≠ EmptyString →
  get_comparisons self b c = ([], Some EmptyString) →
  cr_response (get url_for self compare_ids)
  = error_page "comparison yielded 0 benchmark results" (Some "info")
               (view_title self).
Proof.
  intros Hsplit Hb Hc Hcmp.
  rewrite (get_well_formed_token _ _ _ Hsplit Hb Hc). cbn [cr_response].
  unfold render_comparison, _compare. by rewrite Hcmp.
Qed.

Lemma set_compare_benchmarks_url_raises (e : comparison) :
  side_truthy (baseline e) = true → side_truthy (contender e) = true →
  baseline e ≫= (.!! "benchmark_result_id") = None
  ∨ contender e ≫= (.!! "benchmark_result_id") = None →
  set_compare_benchmarks_url url_for e = inl KeyError.
Proof.
  intros Hb Hc Hmissing. unfold set_compare_benchmarks_url.
  rewrite Hb, Hc. cbn [andb].
  destruct Hmissing as [-> | ->]; [done |].
  by destruct (baseline e ≫= _).
Qed.

Lemma set_compare_benchmarks_url_only_KeyError (e : comparison) x :
  set_compare_benchmarks_url url_for e = inl x → x = KeyError.
Proof.
  unfold set_compare_benchmarks_url.
  destruct (side_truthy (baseline e) && side_truthy (contender e)); [| done].
  destruct (baseline e ≫= _); [| by intros [= <-]].
  destruct (contender e ≫= _); [done | by intros [= <-]].
Qed.

Lemma set_compare_benchmarks_urls_raises (comparisons : list comparison) :
  Exists (λ e, set_compare_benchmarks_url url_for e = inl KeyError)
         comparisons →
  set_compare_benchmarks_urls url_for comparisons = inl KeyError.
Proof.
  induction 1 as [e comparisons He | e comparisons _ IH]; simpl.
  - by rewrite He.
  - destruct (set_compare_benchmarks_url url_for e) as [x | e'] eqn:He.
    + by apply set_compare_benchmarks_url_only_KeyError in He as ->.
    + by rewrite IH.
Qed.

(** X21. When the comparison comes back without an error and one of its
    entries has two non-empty sides of which one lacks
    ["benchmark_result_id"], [KeyError] escapes from [get], whatever the
    other entries are. *)
Theorem get_raises_on_entry_without_id
    (compare_ids b c : string) (comparisons : list comparison)
    (errmsg : option string) (e : comparison) :
  split_at_first "..." compare_ids b c →
  b ≠ EmptyString → c ≠ EmptyString →
  get_comparisons self b c = (comparisons, errmsg) →
  errmsg_truthy errmsg = false →
  e ∈ comparisons →
  side_truthy (baseline e) = true → side_truthy (contender e) = true →
  baseline e ≫= (.!! "benchmark_result_id") = None
  ∨ contender e ≫= (.!! "benchmark_result_id") = None →
  cr_response (get url_for self compare_ids) = compare_raised KeyError.
Proof.
  intros Hsplit Hb Hc Hcmp Herr Hin Htb Htc Hmissing.
  rewrite (get_well_formed_token _ _ _ Hsplit Hb Hc). cbn [cr_response].
  unfold render_comparison, _compare. rewrite Hcmp, Herr.
  rewrite set_compare_benchmarks_urls_raises; [done |].
  apply Exists_exists. exists e. split; [exact Hin |].
  by apply set_compare_benchmarks_url_raises.
Qed.

(** X22. When the comparison comes back without an error and with at least
    one entry, all entries well formed, [get] renders the comparison page
    for the two tokens, with one entry per entry received, each carrying its
    sides and the link that its sides call for. *)
Theorem get_renders_comparison_page
    (compare_ids b c : string) (comparisons : list comparison)
    (errmsg : option string) :
  split_at_first "..." compare_ids b c →
  b ≠ EmptyString → c ≠ EmptyString →
  get_comparisons self b c = (comparisons, errmsg) →
  errmsg_truthy errmsg = false →
  comparisons ≠ [] →
  Forall entry_well_formed comparisons →
  ∃ comparisons',
    get url_for self compare_ids
    = CompareRun (page comparisons' b c) [(b, c)]
    ∧ Forall2 (link_follows_sides url_for) comparisons comparisons'.
Proof.
  intros Hsplit Hb Hc Hcmp Herr Hne Hwf.
  rewrite (get_well_formed_token _ _ _ Hsplit Hb Hc).
  destruct (set_compare_benchmarks_urls_spec url_for comparisons Hwf)
    as (comparisons' & Hset & Hall).
  exists comparisons'. split; [| exact Hall].
  unfold render_comparison, _compare. rewrite Hcmp, Herr, Hset.
  rewrite decide_False; [done |].
  apply Forall2_length in Hall. destruct comparisons; [done |].
  rewrite <- Hall. done.
Qed.

(** X23. Whatever its sides hold, an entry one of whose sides is [None]
    or the empty dictionary passes the loop without an exception and leaves
    it with the link [None], replacing any link it carried; and an entry
    leaves the loop with the link [None] only in that case. *)
Theorem link_is_null_iff_a_side_is_empty (e : comparison) :
  let a_side_is_empty :=
    baseline e = None ∨ baseline e = Some ∅
    ∨ contender e = None ∨ contender e = Some ∅ in
  (a_side_is_empty →
   set_compare_benchmarks_url url_for e
   = inr (Comparison (baseline e) (contender e) None))
  ∧ (∀ e', set_compare_benchmarks_url url_for e = inr e' →
           compare_benchmarks_url e' = None → a_side_is_empty).
Proof.
  cbv zeta. unfold set_compare_benchmarks_url. split.
  - intros Hside.
    assert (Hfalse : side_truthy (baseline e) && side_truthy (contender e)
                     = false).
    { destruct Hside as [-> | [-> | [-> | ->]]]; cbn;
        rewrite ?andb_false_r; done. }
    by rewrite Hfalse.
  - intros e'.
    destruct (side_truthy (baseline e)) eqn:Hb;
      [destruct (side_truthy (contender e)) eqn:Hc |]; cbn [andb].
    + destruct (baseline e ≫= _); [| done].
      destruct (contender e ≫= _); [| done].
      by intros [= <-].
    + intros _ _. unfold side_truthy in Hc.
      destruct (contender e) as [d |]; [| tauto].
      destruct (decide (d = ∅)) as [-> | _]; [tauto | done].
    + intros _ _. unfold side_truthy in Hb.
      destruct (baseline e) as [d |]; [| tauto].
      destruct (decide (d = ∅)) as [-> | _]; [tauto | done].
Qed.

End GetMore.

(** ** The revision [info_id_not_null] *)

Section InfoIdNotNull.
Import info_id_not_null.

Lemma fetch_null_info_after_insert db id :
  fetch_null_info db = None →
  fetch_null_info (insert_info db id ∅) = Some (InfoRow id ∅).
Proof.
  unfold fetch_null_info, insert_info. cbn [info_table].
  rewrite filter_app. intros Hnone.
  destruct (filter (λ i, info_tags i = ∅) (info_table db)); [| done].
  rewrite filter_cons. cbn. by rewrite decide_True.
Qed.

Lemma fetch_null_info_Some db info :
  fetch_null_info db = Some info →
  info ∈ info_table db ∧ info_tags info = ∅.
Proof.
  unfold fetch_null_info. intros Hhead.
  assert (Hin : info ∈ filter (λ i, info_tags i = ∅) (info_table db)).
  { destruct (filter _ (info_table db)) as [| x l]; [done |].
    injection Hhead as ->. left. }
  apply list_elem_of_filter in Hin. tauto.
Qed.

(** Up to the order of the rows, an [UPDATE] changes the rows with the
    given id where they stand. *)
Lemma update_summary_info_id_perm db id info :
  summary_table (update_summary_info_id db id info)
  ≡ₚ (λ s, if decide (summary_id s = id)
           then SummaryRow (summary_id s) (Some info) else s)
       <$> summary_table db.
Proof.
  unfold update_summary_info_id. cbn [summary_table].
  induction (summary_table db) as [| s rows IH]; [done |].
  rewrite !filter_cons, fmap_cons.
  destruct (decide (summary_id s = id)) as [Heq | Hne].
  - rewrite decide_False by (by intros ?). rewrite fmap_cons.
    rewrite <- Permutation_middle. by rewrite IH.
  - rewrite decide_True by done. cbn. by rewrite IH.
Qed.

Lemma summaries_given_info_cons id ids info rows :
  summaries_given_info ids info
    ((λ s, if decide (summary_id s = id)
           then SummaryRow (summary_id s) (Some info) else s) <$> rows)
  = summaries_given_info (id :: ids) info rows.
Proof.
  unfold summaries_given_info. rewrite <- list_fmap_compose.
  apply list_fmap_ext. intros _ s _. cbn.
  destruct (decide (summary_id s = id)) as [Heq | Hne]; cbn.
  - rewrite (decide_True (P := summary_id s ∈ id :: ids))
      by (rewrite Heq; left).
    by destruct (decide (summary_id s ∈ ids)).
  - destruct (decide (summary_id s ∈ ids)) as [Hin | Hout].
    + by rewrite decide_True by (by right).
    + rewrite decide_False; [done |]. rewrite not_elem_of_cons. tauto.
Qed.

Lemma summaries_given_info_nil info rows :
  summaries_given_info [] info rows = rows.
Proof.
  unfold summaries_given_info. rewrite <- (list_fmap_id rows) at 2.
  apply list_fmap_ext. intros _ s _.
  rewrite decide_False; [done | apply not_elem_of_nil].
Qed.

Lemma summaries_given_info_perm ids info rows rows' :
  rows ≡ₚ rows' →
  summaries_given_info ids info rows ≡ₚ summaries_given_info ids info rows'.
Proof. intros Hperm. unfold summaries_given_info. by rewrite Hperm. Qed.

(** Once the info row is known, the loop inserts nothing and gives that
    info to every row whose id is the id of one of the summaries. *)
Lemma upgrade_loop_known new_info_id num summaries :
  ∀ i found db log,
  ∃ rows log',
    upgrade_loop new_info_id num i summaries (Some found) db log
    = inr (Database (info_table db) rows (summary_info_id_nullable db), log')
    ∧ rows ≡ₚ summaries_given_info (summary_id <$> summaries)
                (info_id found) (summary_table db).
Proof.
  induction summaries as [| summary summaries IH]; intros i found db log.
  - exists (summary_table db), log. cbn.
    rewrite summaries_given_info_nil. by destruct db.
  - cbn [upgrade_loop].
    destruct (IH (i + 1)%nat found
                (update_summary_info_id db (summary_id summary) (info_id found))
                (log ++ [FoundNull (i + 1) num (summary_id summary)]))
      as (rows & log' & -> & Hperm).
    exists rows, log'. split; [done |].
    rewrite Hperm, fmap_cons, <- summaries_given_info_cons.
    apply summaries_given_info_perm, update_summary_info_id_perm.
Qed.

Lemma upgrade_loop_spec new_info_id num i summaries db log :
  summaries ≠ [] →
  ∃ rows log',
    upgrade_loop new_info_id num i summaries None db log
    = inr (Database
             (match fetch_null_info db with
              | Some _ => info_table db
              | None => info_table db ++ [InfoRow new_info_id ∅]
              end)
             rows (summary_info_id_nullable db), log')
    ∧ rows ≡ₚ summaries_given_info (summary_id <$> summaries)
                (info_id (null_info_of new_info_id db)) (summary_table db).
Proof.
  destruct summaries as [| summary summaries]; [done |]. intros _.
  cbn [upgrade_loop]. unfold null_info_of.
  destruct (fetch_null_info db) as [found |] eqn:Hfetch.
  - destruct (upgrade_loop_known new_info_id num summaries (i + 1)%nat found
                (update_summary_info_id db (summary_id summary) (info_id found))
                ((log ++ [FoundNull (i + 1) num (summary_id summary)])
                   ++ [FoundNullInfo]))
      as (rows & log' & -> & Hperm).
    exists rows, log'. split; [done |].
    rewrite Hperm, fmap_cons, <- summaries_given_info_cons.
    apply summaries_given_info_perm, update_summary_info_id_perm.
  - rewrite (fetch_null_info_after_insert db new_info_id Hfetch).
    destruct (upgrade_loop_known new_info_id num summaries (i + 1)%nat
                (InfoRow new_info_id ∅)
                (update_summary_info_id (insert_info db new_info_id ∅)
                   (summary_id summary) new_info_id)
                ((log ++ [FoundNull (i + 1) num (summary_id summary)])
                   ++ [NoNullInfo]))
      as (rows & log' & Hloop & Hperm).
    cbn [info_id] in *. rewrite Hloop.
    exists rows, log'. split; [done |].
    rewrite Hperm, fmap_cons, <- summaries_given_info_cons.
    apply summaries_given_info_perm.
    apply (update_summary_info_id_perm (insert_info db new_info_id ∅)).
Qed.

Lemma summaries_given_info_filled (db : database) info :
  Forall (λ s, summary_info_id s ≠ None)
         (summaries_given_info (summaries_without_info_ids db) info
            (summary_table db)).
Proof.
  unfold summaries_given_info. apply Forall_fmap, Forall_forall.
  intros s Hs. cbn.
  destruct (decide (summary_id s ∈ summaries_without_info_ids db))
    as [Hin | Hout]; [done |].
  intros Hnone. apply Hout. unfold summaries_without_info_ids.
  apply list_elem_of_fmap. exists s. split; [done |].
  unfold select_summaries_without_info. by apply list_elem_of_filter.
Qed.

Lemma no_summary_without_info db :
  select_summaries_without_info db = [] →
  Forall (λ s, summary_info_id s ≠ None) (summary_table db).
Proof.
  intros Hnil. apply Forall_forall. intros s Hs Hnone.
  assert (Hin : s ∈ select_summaries_without_info db)
    by (by apply list_elem_of_filter).
  rewrite Hnil in Hin. by apply elem_of_nil in Hin.
Qed.

(** The whole of [upgrade]: it succeeds; with no summary to fill it changes
    only the flag of the column; otherwise the [info] table is as the search
    for an info row with empty tags leaves it, and the [summary] table holds,
    in some order, the rows with the summaries filled. *)
Lemma upgrade_spec new_info_id db :
  ∃ db' log,
    upgrade new_info_id db = inr (db', log)
    ∧ summary_info_id_nullable db' = false
    ∧ (select_summaries_without_info db = [] →
       info_table db' = info_table db
       ∧ summary_table db' = summary_table db ∧ log = [])
    ∧ (select_summaries_without_info db ≠ [] →
       info_table db'
       = match fetch_null_info db with
         | Some _ => info_table db
         | None => info_table db ++ [InfoRow new_info_id ∅]
         end
       ∧ summary_table db'
         ≡ₚ summaries_given_info (summaries_without_info_ids db)
              (info_id (null_info_of new_info_id db)) (summary_table db)).
Proof.
  unfold upgrade.
  destruct (decide (select_summaries_without_info db = [])) as [Hnil | Hne].
  - rewrite Hnil. cbn [upgrade_loop length].
    unfold alter_column_summary_info_id. cbn.
    rewrite decide_True by (by apply no_summary_without_info).
    eexists _, []. split; [done |]. cbn. split; [done |]. split; done.
  - destruct (upgrade_loop_spec new_info_id
                (length (select_summaries_without_info db)) 0
                (select_summaries_without_info db) db [] Hne)
      as (rows & log & -> & Hperm).
    unfold alter_column_summary_info_id. cbn.
    rewrite decide_True
      by (rewrite Hperm; apply summaries_given_info_filled).
    eexists _, log. split; [done |]. cbn. split; [done |]. split; [done |].
    intros _. split; [done | exact Hperm].
Qed.

(** X24. [upgrade] never fails: it ends with a [summary] table in which
    every row has an [info_id], so that the column can be made [NOT NULL];
    the table holds the same ids as before, each as often as before. *)
Theorem upgrade_leaves_no_null new_info_id db :
  ∃ db' log,
    upgrade new_info_id db = inr (db', log)
    ∧ summary_info_id_nullable db' = false
    ∧ Forall (λ s, summary_info_id s ≠ None) (summary_table db')
    ∧ summary_id <$> summary_table db' ≡ₚ summary_id <$> summary_table db.
Proof.
  destruct (upgrade_spec new_info_id db)
    as (db' & log & Hup & Hflag & Hnil & Hne).
  exists db', log. split; [exact Hup |]. split; [exact Hflag |].
  destruct (decide (select_summaries_without_info db = [])) as [Hsel | Hsel].
  - destruct (Hnil Hsel) as (_ & -> & _).
    split; [by apply no_summary_without_info | done].
  - destruct (Hne Hsel) as (_ & Hperm). rewrite Hperm.
    split; [apply summaries_given_info_filled |].
    unfold summaries_given_info. rewrite <- list_fmap_compose.
    assert (Heq : (summary_id ∘ (λ s, if decide (summary_id s
                                                   ∈ summaries_without_info_ids db)
                                      then SummaryRow (summary_id s)
                                             (Some (info_id
                                                      (null_info_of new_info_id db)))
                                      else s)) <$> summary_table db
                  = summary_id <$> summary_table db).
    { apply list_fmap_ext. intros _ s _. cbn.
      by destruct (decide (summary_id s ∈ summaries_without_info_ids db)). }
    by rewrite Heq.
Qed.

(** X25. When no summary lacks its info, [upgrade] changes no row of
    either table and writes nothing to the log: it only makes the column
    [NOT NULL]. *)
Theorem upgrade_without_nulls_changes_no_row new_info_id db :
  select_summaries_without_info db = [] →
  upgrade new_info_id db
  = inr (Database (info_table db) (summary_table db) false, []).
Proof.
  intros Hsel.
  destruct (upgrade_spec new_info_id db)
    as (db' & log & -> & Hflag & Hnil & _).
  destruct (Hnil Hsel) as (Hinfo & Hsummary & ->).
  destruct db' as [infos rows flag]. cbn in *. by subst.
Qed.

(** X26. When some summary lacks its info, [upgrade] settles on one info
    row with empty tags: the row that the query for such a row returns
    first if the [info] table has one, and the table is then left as it
    was; else a single new row with the fresh id, appended to the table.
    That row is in the resulting [info] table, and the resulting [summary]
    table holds, in some order, the former rows, with the id of that info in
    every row that shares its id with a summary that lacked its info and
    with every other row unchanged. *)
Theorem upgrade_fills_with_one_null_info new_info_id db :
  select_summaries_without_info db ≠ [] →
  ∃ db' log info,
    upgrade new_info_id db = inr (db', log)
    ∧ match head (filter (λ i, info_tags i = ∅) (info_table db)) with
      | Some found => info = found ∧ info_table db' = info_table db
      | None =>
          info = InfoRow new_info_id ∅
          ∧ info_table db' = info_table db ++ [InfoRow new_info_id ∅]
      end
    ∧ info ∈ info_table db'
    ∧ info_tags info = ∅
    ∧ summary_table db'
      ≡ₚ summaries_given_info (summaries_without_info_ids db) (info_id info)
           (summary_table db).
Proof.
  intros Hsel.
  destruct (upgrade_spec new_info_id db)
    as (db' & log & Hup & _ & _ & Hne).
  destruct (Hne Hsel) as (Hinfo & Hperm).
  exists db', log, (null_info_of new_info_id db).
  split; [exact Hup |]. split; [| split; [| split; [| exact Hperm]]].
  - unfold null_info_of. fold (fetch_null_info db).
    by destruct (fetch_null_info db).
  - rewrite Hinfo. unfold null_info_of.
    destruct (fetch_null_info db) as [found |] eqn:Hfetch; cbn.
    + by apply fetch_null_info_Some.
    + apply elem_of_app. right. left.
  - unfold null_info_of.
    destruct (fetch_null_info db) as [found |] eqn:Hfetch; cbn; [| done].
    by apply fetch_null_info_Some in Hfetch as [_ ?].
Qed.

(** X27. With distinct summary ids, [upgrade] leaves every summary that
    already had an info exactly as it was. *)
Theorem upgrade_keeps_rows_with_info new_info_id db s :
  NoDup (summary_id <$> summary_table db) →
  s ∈ summary_table db →
  summary_info_id s ≠ None →
  ∃ db' log,
    upgrade new_info_id db = inr (db', log) ∧ s ∈ summary_table db'.
Proof.
  intros Hnd Hs Hinfo.
  destruct (upgrade_spec new_info_id db)
    as (db' & log & Hup & _ & Hnil & Hne).
  exists db', log. split; [exact Hup |].
  destruct (decide (select_summaries_without_info db = [])) as [Hsel | Hsel].
  { destruct (Hnil Hsel) as (_ & -> & _). exact Hs. }
  destruct (Hne Hsel) as (_ & Hperm). rewrite Hperm.
  unfold summaries_given_info. apply list_elem_of_fmap. exists s.
  split; [| exact Hs].
  rewrite decide_False; [done |].
  unfold summaries_without_info_ids. intros Hin.
  apply list_elem_of_fmap in Hin as (s' & Hid & Hs').
  apply list_elem_of_filter in Hs' as [Hnone Hs'].
  assert (s = s'); [| by subst].
  apply list_elem_of_lookup in Hs as [i Hi].
  apply list_elem_of_lookup in Hs' as [j Hj].
  assert (i = j); [| congruence].
  eapply NoDup_lookup; [exact Hnd | |].
  - rewrite list_lookup_fmap, Hi. done.
  - rewrite list_lookup_fmap, Hj. cbn. by rewrite Hid.
Qed.

End InfoIdNotNull.

(** ** The empty comparison *)

Section EmptyComparison.
Variable url_for : string → string → string.
Variable self : Compare.



End EmptyComparison.



(** ** The added properties on concrete inputs *)

(** X2 on a dictionary of three entries, with [n = -1]. *)
Lemma get_first_n_dict_subset_is_slice_witness :
  get_first_n_dict_subset example_dict (-1)
  = Some [("a", 1%nat); ("b", 2%nat)].
Proof.
  apply (get_first_n_dict_subset_is_slice example_dict (-1)).
  apply (bool_decide_unpack _). vm_compute. reflexivity.
Defined.

(** X7 on a case whose only series has three results. *)
Lemma show_benchmark_results_outcomes_witness :
  let matching_results :=
    filter (λ r, BMR.case_id r = "case-1") series_with_failed_run in
  let response :=
    rr_response (show_benchmark_results example_url_for choose_first
                   (cache_of "bench" series_with_failed_run)
                   "bench" "case-1") in
  let some_series_plotted :=
    ∃ k, (3 ≤ length (filter (λ r, series_key r = k) matching_results))%nat in
  (matching_results = [] →
   response = Text "no results found for benchmark `bench` and case `case-1`")
  ∧ ((∃ p, response = Rendered p) ↔ some_series_plotted)
  ∧ (matching_results ≠ [] → ¬ some_series_plotted →
     response = Raised KeyError).
Proof.
  apply (show_benchmark_results_outcomes example_url_for choose_first
           (cache_of "bench" series_with_failed_run) "bench" "case-1"
           series_with_failed_run).
  reflexivity.
Defined.

(** X8 on a series whose results all have the unit "s". *)
Lemma single_unit_no_warning_witness :
  ∃ p,
    show_benchmark_results example_url_for choose_first
      (cache_of "bench" series_with_failed_run) "bench" "case-1"
    = ResultsRun (Rendered p) (cache_of "bench" series_with_failed_run) []
    ∧ y_unit_for_all_plots p = maybe_longer_unit "s".
Proof.
  apply (single_unit_no_warning example_url_for choose_first
           (cache_of "bench" series_with_failed_run) "bench" "case-1"
           series_with_failed_run "s" choose_first_elem).
  - reflexivity.
  - vm_compute. reflexivity.
Defined.

(** X10 on a bucket of three results of one case. *)
Lemma show_benchmark_cases_groups_by_case_witness :
  ∃ p,
    show_benchmark_cases (cache_of "bench" series_with_failed_run) "bench"
    = (Rendered p, cache_of "bench" series_with_failed_run)
    ∧ cp_benchmark_result_count p = length series_with_failed_run
    ∧ NoDup (cp_results_by_case_id p).*1
    ∧ (∀ case_id results,
         (case_id, results) ∈ cp_results_by_case_id p
         ↔ results = filter (λ r, BMR.case_id r = case_id)
                            series_with_failed_run
           ∧ results ≠ [])
    ∧ concat (cp_results_by_case_id p).*2 ≡ₚ series_with_failed_run.
Proof.
  apply (show_benchmark_cases_groups_by_case
           (cache_of "bench" series_with_failed_run) "bench"
           series_with_failed_run).
  reflexivity.
Defined.

(** X11 on the same bucket. *)
Lemma show_benchmark_cases_last_result_witness :
  ∃ p,
    show_benchmark_cases (cache_of "bench" series_newest_first) "bench"
    = (Rendered p, cache_of "bench" series_newest_first)
    ∧ (cp_last_result_per_case_id p).*1 = (cp_results_by_case_id p).*1
    ∧ ∀ case_id r,
        (case_id, r) ∈ cp_last_result_per_case_id p →
        r ∈ series_newest_first
        ∧ BMR.case_id r = case_id
        ∧ ∀ r', r' ∈ series_newest_first → BMR.case_id r' = case_id →
                (BMR.started_at r' <= BMR.started_at r)%Q.
Proof.
  apply (show_benchmark_cases_last_result
           (cache_of "bench" series_newest_first) "bench"
           series_newest_first).
  reflexivity.
Defined.

(** X14 on an index of three benchmarks. *)
Lemma list_benchmarks_page_witness :
  ∃ p,
    list_benchmarks ascii_lower empty_cache example_items = Rendered p
    ∧ bp_benchmarks_by_name_sorted_alphabetically p ≡ₚ example_items
    ∧ StronglySorted
        (λ x y, String.ltb (ascii_lower y.1) (ascii_lower x.1) = false)
        (bp_benchmarks_by_name_sorted_alphabetically p)
    ∧ bp_benchmark_result_count p = size (by_id empty_cache)
    ∧ ∃ newest_sorted newest_in_order,
        Forall2 (λ item r, newest_of_many_results item.2 = Some r)
                example_items newest_in_order
        ∧ newest_sorted ≡ₚ newest_in_order
        ∧ StronglySorted
            (λ r1 r2, (BMR.started_at r2 <= BMR.started_at r1)%Q)
            newest_sorted
        ∧ bp_newest_result_for_each_benchmark_name_topN p
          = take 15 newest_sorted.
Proof.
  eexists. split; [reflexivity |].
  apply (list_benchmarks_page ascii_lower empty_cache example_items).
  - apply (bool_decide_unpack _). vm_compute. reflexivity.
  - reflexivity.
Defined.

(** X15 on the cache that holds no benchmark. *)
Lemma unknown_lookup_breaks_listing_witness :
  let c' :=
    rr_cache (show_benchmark_results example_url_for choose_first
                empty_cache "nope" "case-1") in
  list_benchmarks ascii_lower c' [("nope", [])] = Raised ValueError
  ∧ show_benchmark_cases c' "nope"
    = (Rendered {|
         cp_benchmark_name := "nope";
         cp_results_by_case_id := [];
         cp_hardware_count_per_case_id := [];
         cp_last_result_per_case_id := [];
         cp_context_count_per_case_id := [];
         cp_benchmark_result_count := 0 |}, c').
Proof.
  apply (unknown_lookup_breaks_listing ascii_lower example_url_for
           choose_first empty_cache "nope" "case-1" [("nope", [])]).
  - reflexivity.
  - unfold dict_keys. cbn. rewrite dom_empty_L. apply not_elem_of_empty.
  - vm_compute. reflexivity.
Defined.


(** X18 on the ids of [full_entry]. *)
Lemma get_parses_assembled_token_witness :
  get example_url_for example_compare_runs ("res-b1" +:+ "..." +:+ "res-c1")
  = CompareRun
      (render_comparison example_url_for example_compare_runs
         "res-b1" "res-c1")
      [("res-b1", "res-c1")].
Proof.
  apply (get_parses_assembled_token example_url_for example_compare_runs
           "res-b1" "res-c1").
  - discriminate.
  - discriminate.
  - apply (str_partition_None "." "res-b1"). reflexivity.
Defined.

(** A baseline id that ends in a dot is not recovered: the token
    "a....b", assembled from "a." and "b", is taken apart as "a" and ".b". *)
Example dotted_baseline_is_not_recovered :
  cr_resolutions
    (get example_url_for example_compare_runs ("a." +:+ "..." +:+ "b"))
  = [("a", ".b")].
Proof. reflexivity. Qed.

(** X19 on two runs of which one is unknown. *)
Lemma get_reports_resolution_failure_witness :
  cr_response (get example_url_for example_compare_runs "run-1...run-9")
  = error_page ("cannot perform comparison: " +:+ "not found") (Some "info")
               (view_title example_compare_runs).
Proof.
  apply (get_reports_resolution_failure example_url_for example_compare_runs
           "run-1...run-9" "run-1" "run-9" "not found" []).
  - apply str_partition_split. reflexivity.
  - discriminate.
  - discriminate.
  - reflexivity.
  - discriminate.
Defined.

(** X20 on a store that answers with an empty message. *)
Lemma get_empty_error_message_is_no_error_witness :
  cr_response
    (get example_url_for (compare_view_returning ([], Some EmptyString))
       "run-1...run-9")
  = error_page "comparison yielded 0 benchmark results" (Some "info")
               "Compare Runs".
Proof.
  apply (get_empty_error_message_is_no_error example_url_for
           (compare_view_returning ([], Some EmptyString))
           "run-1...run-9" "run-1" "run-9").
  - apply str_partition_split. reflexivity.
  - discriminate.
  - discriminate.
  - reflexivity.
Defined.

(** X21 on a comparison whose second entry lacks a result id. *)
Lemma get_raises_on_entry_without_id_witness :
  cr_response
    (get example_url_for
       (compare_view_returning ([full_entry; entry_without_id], None))
       "run-1...run-2")
  = compare_raised KeyError.
Proof.
  apply (get_raises_on_entry_without_id example_url_for
           (compare_view_returning ([full_entry; entry_without_id], None))
           "run-1...run-2" "run-1" "run-2"
           [full_entry; entry_without_id] None entry_without_id).
  - apply str_partition_split. reflexivity.
  - discriminate.
  - discriminate.
  - reflexivity.
  - reflexivity.
  - right. left.
  - reflexivity.
  - reflexivity.
  - left. reflexivity.
Defined.

(** X22 on two runs that share cases. *)
Lemma get_renders_comparison_page_witness :
  ∃ comparisons',
    get example_url_for example_compare_runs "run-1...run-2"
    = CompareRun (page comparisons' "run-1" "run-2") [("run-1", "run-2")]
    ∧ Forall2 (link_follows_sides example_url_for)
              [full_entry; baseline_only_entry] comparisons'.
Proof.
  apply (get_renders_comparison_page example_url_for example_compare_runs
           "run-1...run-2" "run-1" "run-2"
           [full_entry; baseline_only_entry] None).
  - apply str_partition_split. reflexivity.
  - discriminate.
  - discriminate.
  - reflexivity.
  - reflexivity.
  - discriminate.
  - repeat constructor; simpl; by rewrite lookup_singleton_eq.
Defined.

(** X23 on an entry whose baseline is the empty dictionary. *)
Lemma link_is_null_iff_a_side_is_empty_witness :
  set_compare_benchmarks_url example_url_for
    (Comparison (Some ∅) (Some {[ "benchmark_result_id" := "res-c1" ]})
                (Some "/old-link"))
  = inr (Comparison (Some ∅) (Some {[ "benchmark_result_id" := "res-c1" ]})
                    None).
Proof.
  apply (link_is_null_iff_a_side_is_empty example_url_for
           (Comparison (Some ∅)
                       (Some {[ "benchmark_result_id" := "res-c1" ]})
                       (Some "/old-link"))).
  right. left. reflexivity.
Defined.

(** X25 on a database whose summaries all have their info. *)
Lemma upgrade_without_nulls_changes_no_row_witness :
  info_id_not_null.upgrade "fresh" example_db_complete
  = inr (info_id_not_null.Database
           (info_id_not_null.info_table example_db_complete)
           (info_id_not_null.summary_table example_db_complete) false, []).
Proof.
  apply (upgrade_without_nulls_changes_no_row "fresh" example_db_complete).
  reflexivity.
Defined.

(** X26 on a database with two summaries without info and no info row
    with empty tags. *)
Lemma upgrade_fills_with_one_null_info_witness :
  ∃ db' log info,
    info_id_not_null.upgrade "fresh" example_db = inr (db', log)
    ∧ match head (filter (λ i, info_id_not_null.info_tags i = ∅)
                         (info_id_not_null.info_table example_db)) with
      | Some found =>
          info = found
          ∧ info_id_not_null.info_table db'
            = info_id_not_null.info_table example_db
      | None =>
          info = info_id_not_null.InfoRow "fresh" ∅
          ∧ info_id_not_null.info_table db'
            = info_id_not_null.info_table example_db
                ++ [info_id_not_null.InfoRow "fresh" ∅]
      end
    ∧ info ∈ info_id_not_null.info_table db'
    ∧ info_id_not_null.info_tags info = ∅
    ∧ info_id_not_null.summary_table db'
      ≡ₚ summaries_given_info (summaries_without_info_ids example_db)
           (info_id_not_null.info_id info)
           (info_id_not_null.summary_table example_db).
Proof.
  apply (upgrade_fills_with_one_null_info "fresh" example_db).
  discriminate.
Defined.

(** X27 on the summary of that database that has its info. *)
Lemma upgrade_keeps_rows_with_info_witness :
  ∃ db' log,
    info_id_not_null.upgrade "fresh" example_db = inr (db', log)
    ∧ info_id_not_null.SummaryRow "s1" (Some "i1")
      ∈ info_id_not_null.summary_table db'.
Proof.
  apply (upgrade_keeps_rows_with_info "fresh" example_db
           (info_id_not_null.SummaryRow "s1" (Some "i1"))).
  - apply (bool_decide_unpack _). vm_compute. reflexivity.
  - left.
  - discriminate.
Defined.

(** The revision on the example database: the log, the inserted info row
    and the filled summaries. *)
Example upgrade_example :
  info_id_not_null.upgrade "fresh" example_db
  = inr (info_id_not_null.Database
           [ info_id_not_null.InfoRow "i1" {[ "arrow" := "1.0" ]};
             info_id_not_null.InfoRow "fresh" ∅ ]
           [ info_id_not_null.SummaryRow "s1" (Some "i1");
             info_id_not_null.SummaryRow "s2" (Some "fresh");
             info_id_not_null.SummaryRow "s3" (Some "fresh") ]
           false,
         [ info_id_not_null.FoundNull 1 2 "s2";
           info_id_not_null.NoNullInfo;
           info_id_not_null.FoundNull 2 2 "s3" ]).
Proof. vm_compute. reflexivity. Qed.

(** A summary with its info between two that lack it: the filled rows come
    after the row that was left alone. *)
Example upgrade_example_interleaved :
  (λ r, info_id_not_null.summary_table r.1)
    <$> (match info_id_not_null.upgrade "fresh" example_db_interleaved with
         | inr r => Some r
         | inl _ => None
         end)
  = Some [ info_id_not_null.SummaryRow "s2" (Some "i1");
           info_id_not_null.SummaryRow "s1" (Some "fresh");
           info_id_not_null.SummaryRow "s3" (Some "fresh") ].
Proof. vm_compute. reflexivity. Qed.
